(** * sqlgen/encoding: array and composite literal codec

    A shallow embedding of [encoding/encoding.go]: the quoting encoder
    [AppendArrayQuotedBytes], the composite splitter [SplitBytes] with its
    [scanner], the array parser [parseArray] and its linear entry point
    [ScanLinearArray], followed by the properties the specification states
    about them.

    Conventions.
    - A byte is a [Byte.byte]; a byte string is a [list byte].
    - A Go [[]byte] value that may be the nil slice is a [slice]:
      [None] is nil, [Some l] a non-nil slice holding [l]. [parseArray]
      uses nil for SQL NULL, so the difference is kept.
    - Go [int] values ([depth], the entries of [dims], the reader position)
      are unbounded integers: each of them is bounded by the length of the
      input, so the 64-bit wrap-around is never reached.
    - A run-time panic is an outcome of its own, [Panics]. *)

From Stdlib Require Import Strings.String Strings.Byte Strings.Ascii.
From Stdlib Require Import List ZArith Lia Bool DecimalString.
From Equations Require Import Equations.
Import ListNotations.

Local Open Scope Z_scope.

(** ** Go values used by the package *)

Module Go.

(** The bytes the package tests for. *)
Definition dquote : byte := x22.
Definition backslash : byte := x5c.
Definition lparen : byte := x28.
Definition rparen : byte := x29.
Definition comma : byte := x2c.
Definition lbrace : byte := x7b.
Definition rbrace : byte := x7d.

(** A [[]byte]: [None] is the nil slice. *)
Definition slice := option (list byte).

Definition contents (s : slice) : list byte :=
  match s with Some l => l | None => [] end.

(** [append(s, b)] on a possibly nil slice. *)
Definition append (s : slice) (b : byte) : slice :=
  Some (contents s ++ [b]).

(** The error values of the package and of the readers it uses. Each
    constructor stands for one message; its arguments are the arguments
    of the format.
    - [EOF] is [io.EOF];
    - [NegativePosition] is "bytes.Reader.Seek: negative position";
    - [TypeExpected c n] is
      "unable to parse type, expected %q at offset %d";
    - [ArrayExpected c n] is
      "pq: unable to parse array; expected %q at offset %d";
    - [ArrayUnexpected c n] is
      "pq: unable to parse array; unexpected %q at offset %d";
    - [DimensionMismatch] is "pq: multidimensional arrays must have
      elements with matching dimensions";
    - [CannotConvert shape typ] is "pq: cannot convert ARRAY%s to %s". *)
Inductive error : Type :=
| EOF
| NegativePosition
| TypeExpected (c : byte) (offset : nat)
| ArrayExpected (c : byte) (offset : nat)
| ArrayUnexpected (c : byte) (offset : nat)
| DimensionMismatch
| CannotConvert (shape typ : string).

Inductive panic : Type :=
| IndexOutOfRange (index : Z) (len : nat)
| IntegerDivideByZero
| PanicError (e : error).

(** What a call does: it returns, or it panics. *)
Inductive outcome (A : Type) : Type :=
| Returns (a : A)
| Panics (p : panic).
Arguments Returns {A} a.
Arguments Panics {A} p.

Definition bind {A B} (m : outcome A) (k : A -> outcome B) : outcome B :=
  match m with
  | Returns a => k a
  | Panics p => Panics p
  end.

(** [bytes.HasPrefix(s, prefix)]. *)
Fixpoint hasPrefix (s prefix : list byte) {struct prefix} : bool :=
  match prefix with
  | [] => true
  | p :: prefix' =>
      match s with
      | [] => false
      | c :: s' => Byte.eqb c p && hasPrefix s' prefix'
      end
  end.

(** [bytes.Equal(a, b)]. *)
Definition bytesEqual (a b : list byte) : bool :=
  if list_eq_dec Byte.byte_eq_dec a b then true else false.

(** [bytes.IndexAny(v, chars)] for a set [chars] of ASCII bytes: the index
    of the first byte of [v] that is in [chars]; [None] stands for -1. *)
Fixpoint indexAny (v chars : list byte) : option nat :=
  match v with
  | [] => None
  | c :: v' =>
      if existsb (Byte.eqb c) chars then Some 0%nat
      else option_map S (indexAny v' chars)
  end.

(** [l[idx] = f(l[idx])] on an [[]int]; an index outside the slice
    panics. *)
Fixpoint updateNth (l : list Z) (n : nat) (f : Z -> Z) : list Z :=
  match l, n with
  | [], _ => []
  | x :: l', O => f x :: l'
  | x :: l', S n' => x :: updateNth l' n' f
  end.

Definition updateIndex (l : list Z) (idx : Z) (f : Z -> Z) : outcome (list Z) :=
  if (0 <=? idx) && (idx <? Z.of_nat (length l))
  then Returns (updateNth l (Z.to_nat idx) f)
  else Panics (IndexOutOfRange idx (length l)).

(** [fmt.Sprint] of an [int]. *)
Definition sprintInt (z : Z) : string :=
  NilZero.string_of_int (Z.to_int z).

(** [fmt.Sprint] of an [[]int]: the entries in brackets, one space
    between two of them. *)
Definition sprintInts (l : list Z) : string :=
  ("[" ++ String.concat " " (map sprintInt l) ++ "]")%string.

(** [strings.Replace(s, " ", new, -1)]: every space replaced. *)
Fixpoint replaceSpaces (s new : string) : string :=
  match s with
  | EmptyString => EmptyString
  | String c s' =>
      if Ascii.eqb c " "%char then (new ++ replaceSpaces s' new)%string
      else String c (replaceSpaces s' new)
  end.

End Go.
Import Go.

(** A byte string written as text. *)
Definition bs (s : string) : list byte := list_byte_of_string s.

(** A value with the equation that it is the value of [a], for the
    definitions below that branch on a result and recurse. *)
Definition inspect {A : Type} (a : A) : {b : A | a = b} := exist _ a eq_refl.

(** ** The quoting encoder *)

Lemma indexAny_lt (v chars : list byte) (n : nat) :
  indexAny v chars = Some n -> (n < length v)%nat.
Proof.
  revert n; induction v as [|c v IH]; simpl; intros n H; [discriminate|].
  destruct (existsb (Byte.eqb c) chars).
  - injection H as <-. lia.
  - destruct (indexAny v chars) as [m|]; simpl in H; [|discriminate].
    injection H as <-. specialize (IH m eq_refl). lia.
Qed.

(** The body of the [for] loop of [AppendArrayQuotedBytes]: [b] and [v] are
    the two variables it updates, the result is [b] at the [break]. *)
Equations? quoteLoop (b v : list byte) : list byte by wf (length v) lt :=
  quoteLoop b v with inspect (indexAny v [dquote; backslash]) := {
    | exist _ None _ => b ++ v
    | exist _ (Some n) Hn =>
        quoteLoop
          ((if (0 <? n)%nat then b ++ firstn n v else b)
             ++ [backslash; nth n v x00])
          (skipn (n + 1) v) }.
Proof.
  apply indexAny_lt in Hn. rewrite length_skipn. lia.
Qed.

Definition AppendArrayQuotedBytes (b v : list byte) : list byte :=
  quoteLoop (b ++ [dquote]) v ++ [dquote].

(** ** The array parser *)

(** The variables of [parseArray]. The cursor [i] into [src] is kept
    together with the bytes it has not passed, [rest = src[i:]]: [src[i]] is
    the head of [rest], [i < len(src)] says [rest] is not empty, and [i++]
    drops the head. *)
Record pstate : Type := mkPstate {
  depth : Z;
  i : nat;
  rest : list byte;
  dims : list Z;
  elems : list slice
}.

(** The [Open] loop. It is left by [break Open] or by its condition
    ([OpenBreak]), or by [goto Close] ([OpenGotoClose]). *)
Inductive openExit : Type := OpenBreak | OpenGotoClose.

Fixpoint openLoop (rest : list byte) (depth : Z) (i : nat)
  : openExit * (Z * nat * list byte) :=
  match rest with
  | [] => (OpenBreak, (depth, i, []))
  | c :: rest' =>
      if Byte.eqb c lbrace then openLoop rest' (depth + 1) (S i)
      else if Byte.eqb c rbrace then (OpenGotoClose, (depth, i, rest))
      else (OpenBreak, (depth, i, rest))
  end.

(** The inner loop of the quoted branch, entered after its [i++]: it ends
    at the closing quote ([QuotedClosed], with the cursor after the quote)
    or at the end of the input ([QuotedExhausted]). *)
Inductive quotedScan : Type :=
| QuotedClosed (elem : list byte) (i : nat) (rest : list byte)
| QuotedExhausted (i : nat).

Fixpoint scanQuoted (rest : list byte) (i : nat) (elem : list byte)
  (escape : bool) : quotedScan :=
  match rest with
  | [] => QuotedExhausted i
  | c :: rest' =>
      if escape then scanQuoted rest' (S i) (elem ++ [c]) false
      else if Byte.eqb c backslash then scanQuoted rest' (S i) elem true
      else if Byte.eqb c dquote then QuotedClosed elem (S i) rest'
      else scanQuoted rest' (S i) (elem ++ [c]) false
  end.

(** The inner loop of the unquoted branch. [span] is [src[start:i]]. It
    ends where the delimiter or a closing brace starts ([UnquotedFound span
    i rest], the cursor on that byte) or at the end of the input. *)
Inductive unquotedScan : Type :=
| UnquotedFound (span : list byte) (i : nat) (rest : list byte)
| UnquotedExhausted (i : nat).

Fixpoint scanUnquoted (del rest : list byte) (i : nat) (span : list byte)
  : unquotedScan :=
  match rest with
  | [] => UnquotedExhausted i
  | c :: rest' =>
      if hasPrefix rest del || Byte.eqb c rbrace then UnquotedFound span i rest
      else scanUnquoted del rest' (S i) (span ++ [c])
  end.

(** What one turn of a loop does next. *)
Inductive turn : Type :=
| Continue (st : pstate)          (* next turn of the same loop *)
| BreakElement (st : pstate)      (* [break Element] *)
| GotoElement (st : pstate)       (* [goto Element] *)
| LoopEnd                         (* the loop condition is false *)
| ReturnError (e : error)         (* [return nil, nil, err] *)
| Panic (p : panic).

(** The element recorded for an unquoted span. *)
Definition unquotedElem (span : list byte) : slice :=
  if bytesEqual span (bs "NULL") then None else Some span.

(** One turn of the [Element] loop. *)
Definition elementTurn (del : list byte) (st : pstate) : turn :=
  match rest st with
  | [] => LoopEnd
  | c :: rest' =>
      if Byte.eqb c lbrace then
        let depth' := depth st + 1 in
        match updateIndex (dims st) (depth' - 1) (fun _ => 0) with
        | Panics p => Panic p
        | Returns dims' =>
            Continue (mkPstate depth' (S (i st)) rest' dims' (elems st))
        end
      else if Byte.eqb c dquote then
        match scanQuoted rest' (S (i st)) [] false with
        | QuotedClosed elem i' rest'' =>
            BreakElement
              (mkPstate (depth st) i' rest'' (dims st)
                 (elems st ++ [Some elem]))
        | QuotedExhausted i' =>
            Continue (mkPstate (depth st) i' [] (dims st) (elems st))
        end
      else
        match scanUnquoted del (rest st) (i st) [] with
        | UnquotedFound span i' rest'' =>
            if (length span =? 0)%nat
            then ReturnError (ArrayUnexpected (hd x00 rest'') i')
            else
              BreakElement
                (mkPstate (depth st) i' rest'' (dims st)
                   (elems st ++ [unquotedElem span]))
        | UnquotedExhausted i' =>
            Continue (mkPstate (depth st) i' [] (dims st) (elems st))
        end
  end.

(** One turn of the loop after [Element], which expects the delimiter or a
    closing brace. *)
Definition delimTurn (del : list byte) (st : pstate) : turn :=
  match rest st with
  | [] => LoopEnd
  | c :: rest' =>
      if hasPrefix (rest st) del then
        match updateIndex (dims st) (depth st - 1) Z.succ with
        | Panics p => Panic p
        | Returns dims' =>
            GotoElement
              (mkPstate (depth st) (i st + length del)
                 (skipn (length del) (rest st)) dims' (elems st))
        end
      else if Byte.eqb c rbrace then
        match updateIndex (dims st) (depth st - 1) Z.succ with
        | Panics p => Panic p
        | Returns dims' =>
            Continue
              (mkPstate (depth st - 1) (S (i st)) rest' dims' (elems st))
        end
      else ReturnError (ArrayUnexpected c (i st))
  end.

(** The two loops between the labels [Element] and [Close]. *)
Inductive label : Type := Element | Delimiter.

Definition turnOf (del : list byte) (l : label) (st : pstate) : turn :=
  match l with
  | Element => elementTurn del st
  | Delimiter => delimTurn del st
  end.

(** A measure for the two loops. Every turn moves the cursor forward, except
    [goto Element] after an empty delimiter, which needs unread input and
    is followed by a turn of [Element] that does; and [Element] hands over
    to the next loop when its condition is false, at the end of the
    input. *)
Definition weight (l : label) (st : pstate) : nat :=
  match l, rest st with
  | Element, [] => 1
  | Element, _ :: _ => 2 * length (rest st)
  | Delimiter, [] => 0
  | Delimiter, _ :: _ => 2 * length (rest st) + 1
  end%nat.

Lemma scanQuoted_rest (r : list byte) (n : nat) (e : list byte) (esc : bool)
  (e' : list byte) (n' : nat) (r' : list byte) :
  scanQuoted r n e esc = QuotedClosed e' n' r' ->
  (length r' < length r)%nat.
Proof.
  revert n e esc; induction r as [|c r IH]; simpl; intros n e esc H;
    [discriminate|].
  destruct esc; [apply IH in H; lia|].
  destruct (Byte.eqb c backslash); [apply IH in H; lia|].
  destruct (Byte.eqb c dquote); [|apply IH in H; lia].
  injection H as _ _ <-. lia.
Qed.

Lemma scanUnquoted_rest (del r : list byte) (n : nat) (sp : list byte)
  (sp' : list byte) (n' : nat) (r' : list byte) :
  scanUnquoted del r n sp = UnquotedFound sp' n' r' ->
  (length r' + length sp' = length r + length sp)%nat.
Proof.
  revert n sp; induction r as [|c r IH]; simpl; intros n sp H;
    [discriminate|].
  destruct (_ || _).
  - injection H as <- _ <-. reflexivity.
  - apply IH in H. rewrite length_app in H. simpl in *. lia.
Qed.

(** A turn of a loop, and the label it goes to, is a strict descent for
    [weight]. *)
Lemma turnOf_weight (del : list byte) (l : label) (st : pstate) :
  match turnOf del l st with
  | Continue st' => (weight l st' < weight l st)%nat
  | BreakElement st' => (weight Delimiter st' < weight l st)%nat
  | GotoElement st' => (weight Element st' < weight l st)%nat
  | LoopEnd => rest st = []
  | _ => True
  end.
Proof.
  assert (W : forall l' d n r ds es,
             (length r < length (rest st))%nat ->
             (weight l' (mkPstate d n r ds es) < weight l st)%nat).
  { intros l' d n r ds es Hr. unfold weight; simpl.
    destruct l', l, r, (rest st); simpl in *; lia. }
  destruct st as [d n r ds es]; destruct l; unfold turnOf.
  - unfold elementTurn; cbn [rest depth dims elems i].
    destruct r as [|c r]; [reflexivity|].
    destruct (Byte.eqb c lbrace).
    { destruct (updateIndex _ _ _); [apply W; simpl; lia|exact I]. }
    destruct (Byte.eqb c dquote).
    { destruct (scanQuoted _ _ _ _) eqn:E; apply W; simpl; [|lia].
      apply scanQuoted_rest in E. lia. }
    destruct (scanUnquoted _ _ _ _) eqn:E; [|apply W; simpl; lia].
    apply scanUnquoted_rest in E. simpl in E.
    destruct (length span =? 0)%nat eqn:L; [exact I|].
    apply Nat.eqb_neq in L. apply W; simpl; lia.
  - unfold delimTurn; cbn [rest depth dims elems i].
    destruct r as [|c r]; [reflexivity|].
    destruct (hasPrefix (c :: r) del) eqn:P.
    { destruct (updateIndex _ _ _); [|exact I].
      unfold weight; cbn [rest].
      destruct (skipn (length del) (c :: r)) as [|c' r'] eqn:S; [simpl; lia|].
      assert (length (c' :: r') <= length (c :: r))%nat
        by (rewrite <- S, length_skipn; lia).
      simpl in *; lia. }
    destruct (Byte.eqb c rbrace); [|exact I].
    destruct (updateIndex _ _ _); [apply W; simpl; lia|exact I].
Qed.

(** The loops [Element] and the one after it, from the turn of [l] in state
    [st] until the second loop is left by its condition ([inl], with the
    state then) or an error is returned ([inr]). *)
Equations? loops (del : list byte) (l : label) (st : pstate)
  : outcome (pstate + error) by wf (weight l st) lt :=
  loops del Element st with inspect (elementTurn del st) := {
    | exist _ (Continue st') H => loops del Element st'
    | exist _ (BreakElement st') H => loops del Delimiter st'
    | exist _ (GotoElement st') H => loops del Element st'
    | exist _ LoopEnd H => loops del Delimiter st
    | exist _ (ReturnError e) H => Returns (inr e)
    | exist _ (Panic p) H => Panics p };
  loops del Delimiter st with inspect (delimTurn del st) := {
    | exist _ (Continue st') H => loops del Delimiter st'
    | exist _ (BreakElement st') H => loops del Delimiter st'
    | exist _ (GotoElement st') H => loops del Element st'
    | exist _ LoopEnd H => Returns (inl st)
    | exist _ (ReturnError e) H => Returns (inr e)
    | exist _ (Panic p) H => Panics p }.
Proof.
  all: try (pose proof (turnOf_weight del Element st) as W; simpl in W;
            rewrite H in W; try exact W;
            unfold weight; rewrite W; simpl; lia).
  all: pose proof (turnOf_weight del Delimiter st) as W; simpl in W;
    rewrite H in W; exact W.
Qed.

(** The [Close] loop: the new [depth] and [i], or the error returned. *)
Fixpoint closeLoop (rest : list byte) (depth : Z) (i : nat)
  : (Z * nat) + error :=
  match rest with
  | [] => inl (depth, i)
  | c :: rest' =>
      if Byte.eqb c rbrace && (0 <? depth)
      then closeLoop rest' (depth - 1) (S i)
      else inr (ArrayUnexpected c i)
  end.

(** The range loop over [dims] at the end: [n] is [len(elems)], [err] the
    error so far. The remainder by a zero entry panics. *)
Fixpoint checkDims (n : Z) (dims : list Z) (err : option error)
  : outcome (option error) :=
  match dims with
  | [] => Returns err
  | d :: dims' =>
      if d =? 0 then Panics IntegerDivideByZero
      else checkDims n dims'
             (if negb (Z.rem n d =? 0) then Some DimensionMismatch else err)
  end.

(** What [parseArray] returns: [dims], [elems] and [err]. *)
Definition parsed : Type := list Z * list slice * option error.

(** From the label [Close] to the final [return]. *)
Definition closeAndCheck (st : pstate) : outcome parsed :=
  match closeLoop (rest st) (depth st) (i st) with
  | inr e => Returns ([], [], Some e)
  | inl (depth', i') =>
      let err := if 0 <? depth' then Some (ArrayExpected rbrace i') else None in
      bind (match err with
            | None => checkDims (Z.of_nat (length (elems st))) (dims st) err
            | Some _ => Returns err
            end)
           (fun err' => Returns (dims st, elems st, err'))
  end.

(** The part of [parseArray] before the label [Close]: the state at
    [Close], or the error returned before. *)
Definition parseStructure (src del : list byte) : outcome (pstate + error) :=
  match src with
  | [] => Returns (inr (ArrayExpected lbrace 0))
  | c :: _ =>
      if negb (Byte.eqb c lbrace)
      then Returns (inr (ArrayExpected lbrace 0))
      else
        match openLoop src 0 0 with
        | (OpenGotoClose, (depth', i', rest')) =>
            Returns (inl (mkPstate depth' i' rest' [] []))
        | (OpenBreak, (depth', i', rest')) =>
            loops del Element
              (mkPstate depth' i' rest' (repeat 0 i') [])
        end
  end.

Definition parseArray (src del : list byte) : outcome parsed :=
  bind (parseStructure src del)
       (fun r => match r with
                 | inr e => Returns ([], [], Some e)
                 | inl st => closeAndCheck st
                 end).

(** [ScanLinearArray] returns [elems] and [err]. *)
Definition ScanLinearArray (src del : list byte) (typ : string)
  : outcome (list slice * option error) :=
  bind (parseArray src del)
       (fun r => match r with
                 | (_, _, Some err) => Returns ([], Some err)
                 | (dims, elems, None) =>
                     if (1 <? length dims)%nat
                     then Returns
                            ([], Some (CannotConvert
                                         (replaceSpaces (sprintInts dims) "][")
                                         typ))
                     else Returns (elems, None)
                 end).

(** ** The composite splitter *)

(** A [bytes.Reader]: the bytes [s] it reads and its position [pos]. *)
Record reader : Type := mkReader {
  s : list byte;
  pos : Z
}.

(** [ReadByte]: at the end of [s] it returns 0 and [io.EOF] and does not
    move. *)
Definition ReadByte (r : reader) : (byte * option error) * reader :=
  if Z.of_nat (length (s r)) <=? pos r
  then ((x00, Some EOF), r)
  else ((nth (Z.to_nat (pos r)) (s r) x00, None),
        mkReader (s r) (pos r + 1)).

(** [Seek(offset, io.SeekCurrent)]. *)
Definition SeekCurrent (r : reader) (offset : Z)
  : (Z * option error) * reader :=
  let abs := pos r + offset in
  if abs <? 0 then ((0, Some NegativePosition), r)
  else ((abs, None), mkReader (s r) abs).

(** The methods of [scanner]. [Peek] returns the error of [Seek], not the
    one of [ReadByte]. *)
Definition Next (r : reader) : (byte * option error) * reader :=
  ReadByte r.

Definition Peek (r : reader) : outcome ((byte * option error) * reader) :=
  let '((b, _), r1) := ReadByte r in
  let '((_, err), r2) := SeekCurrent r1 (-1) in
  match err with
  | Some e => Panics (PanicError e)
  | None => Returns ((b, err), r2)
  end.

(** The variables of the loop of [SplitBytes]. *)
Record sstate : Type := mkSstate {
  rd : reader;
  chunks : list slice;
  elem : slice;
  prev : byte;
  sdepth : Z;
  quoted : bool
}.

Definition isEOF (e : error) : bool :=
  match e with EOF => true | _ => false end.

(** The [switch] on the byte [b] just read and the assignment [prev = b]
    after it; [r1] is the reader after the read. *)
Definition splitSwitch (st : sstate) (b : byte) (r1 : reader)
  : outcome sstate :=
  if Byte.eqb b rparen then
    if negb (quoted st)
    then Returns (mkSstate r1 (chunks st ++ [elem st]) (elem st) b
                    (sdepth st - 1) (quoted st))
    else Returns (mkSstate r1 (chunks st) (append (elem st) b) b
                    (sdepth st) (quoted st))
  else if Byte.eqb b dquote then
    bind (Peek r1) (fun pk =>
      let '((by_, err), r2) := pk in
      if match err with None => Byte.eqb by_ dquote | Some _ => false end
      then
        let '(_, r3) := Next r2 in
        Returns (mkSstate r3 (chunks st) (append (elem st) b) b
                   (sdepth st) (quoted st))
      else if negb (Byte.eqb (prev st) backslash)
      then Returns (mkSstate r2 (chunks st) (elem st) b
                      (sdepth st) (negb (quoted st)))
      else Returns (mkSstate r2 (chunks st) (append (elem st) b) b
                      (sdepth st) (quoted st)))
  else if Byte.eqb b comma then
    if negb (quoted st)
    then Returns (mkSstate r1 (chunks st ++ [elem st]) (Some []) b
                    (sdepth st) (quoted st))
    else Returns (mkSstate r1 (chunks st) (append (elem st) b) b
                    (sdepth st) (quoted st))
  else
    Returns (mkSstate r1 (chunks st) (append (elem st) b) b
               (sdepth st) (quoted st)).

(** One turn of the loop of [SplitBytes] after the test of [depth]: the
    next state ([inl]) or the error returned ([inr]). *)
Definition splitTurn (st : sstate) : outcome (sstate + error) :=
  let '((b, err), r1) := Next (rd st) in
  if match err with Some e => negb (isEOF e) | None => false end
  then Returns (inr (match err with Some e => e | None => EOF end))
  else bind (splitSwitch st b r1) (fun st' => Returns (inl st')).

(** The loop of [SplitBytes], for at most [fuel] turns: [None] when it has
    not returned by then. It returns [chunks] and the error. *)
Fixpoint splitLoop (fuel : nat) (st : sstate)
  : option (outcome (list slice * option error)) :=
  match fuel with
  | O => None
  | S fuel' =>
      if sdepth st =? 0 then Some (Returns (chunks st, None))
      else
        match splitTurn st with
        | Panics p => Some (Panics p)
        | Returns (inr e) => Some (Returns ([], Some e))
        | Returns (inl st') => splitLoop fuel' st'
        end
  end.

(** The variables before the loop: the reader is on [src[1:]], [chunks]
    is empty, [elem] is nil, [prev] is 0, [depth] is 1, [quoted] is
    false. *)
Definition splitInit (body : list byte) : sstate :=
  mkSstate (mkReader body 0) [] None x00 1 false.

Definition SplitBytes (fuel : nat) (src : list byte)
  : option (outcome (list slice * option error)) :=
  match src with
  | [] => Some (Returns ([], Some (TypeExpected lparen 0)))
  | c :: src' =>
      if negb (Byte.eqb c lparen)
      then Some (Returns ([], Some (TypeExpected lparen 0)))
      else splitLoop fuel (splitInit src')
  end.


(** * Notions used to state the properties *)

(** What the encoder writes for one byte of the value. *)
Definition escapeByte (c : byte) : list byte :=
  if existsb (Byte.eqb c) [dquote; backslash] then [backslash; c] else [c].

Definition escaped (v : list byte) : list byte := flat_map escapeByte v.


(** The turn from [st] looks at no byte past the end of the input: the
    reader has a byte to read, and one more to peek at when that byte is a
    quote. *)
Definition inside (st : sstate) : Prop :=
  pos (rd st) + 1 < Z.of_nat (length (s (rd st))) \/
  (pos (rd st) < Z.of_nat (length (s (rd st))) /\
   nth (Z.to_nat (pos (rd st))) (s (rd st)) x00 <> dquote).

(** A shape as the error of [ScanLinearArray] shows it: every dimension
    in brackets of its own. *)
Definition shapeText (ds : list Z) : string :=
  ("[" ++ String.concat "][" (map sprintInt ds) ++ "]")%string.

(** The states in which the loop of [SplitBytes] on [( :: body] takes a
    turn or ends. *)
Inductive reached (body : list byte) : sstate -> Prop :=
| reached_init : reached body (splitInit body)
| reached_turn (st st' : sstate) :
    reached body st -> sdepth st <> 0 ->
    splitTurn st = Returns (inl st') ->
    reached body st'.

(** [len(src) < 1 || src[0] != '('] is false. *)
Definition beginsWithParen (src : list byte) : bool :=
  match src with
  | [] => false
  | c :: _ => Byte.eqb c lparen
  end.

(** The entries of [dims] are counts, and the entry of every level that
    has been closed, from [depth] on, counts at least one. *)
Definition countsOk (st : pstate) : Prop :=
  0 <= depth st /\
  Forall (fun d => 0 <= d) (dims st) /\
  Forall (fun d => 1 <= d) (skipn (Z.to_nat (depth st)) (dims st)).

(** The byte [k] places after the reader of [st]; 0 past the end. *)
Definition byteAt (st : sstate) (k : Z) : byte :=
  nth (Z.to_nat (pos (rd st) + k)) (s (rd st)) x00.

(** The state after a turn that read [n] bytes, the last one [b]. *)
Definition after (st : sstate) (n : Z) (b : byte) (cs : list slice)
  (e : slice) (q : bool) : sstate :=
  mkSstate (mkReader (s (rd st)) (pos (rd st) + n)) cs e b (sdepth st) q.

(** *** Nested array values and the literals written for them *)

(** An element as the backend writes it: a bare span of bytes, or a quoted
    value. *)
Inductive item : Type :=
| Unquoted (span : list byte)
| Quoted (v : list byte).

(** A nested array value: an element, or an array of one or more values. *)
Inductive tree : Type :=
| Leaf (it : item)
| Node (f : forest)
with forest : Type :=
| One (t : tree)
| More (t : tree) (f : forest).

Scheme tree_forest_ind := Induction for tree Sort Prop
  with forest_tree_ind := Induction for forest Sort Prop.
Combined Scheme tree_forest_mutind from tree_forest_ind, forest_tree_ind.

Definition itemText (it : item) : list byte :=
  match it with
  | Unquoted span => span
  | Quoted v => dquote :: escaped v ++ [dquote]
  end.

(** The element the parser is to record for an item. *)
Definition itemElem (it : item) : slice :=
  match it with
  | Unquoted span => unquotedElem span
  | Quoted v => Some v
  end.

Fixpoint forestLength (f : forest) : Z :=
  match f with
  | One _ => 1
  | More _ f' => 1 + forestLength f'
  end.

(** The elements of a value in row-major order. *)
Fixpoint flatten (t : tree) : list slice :=
  match t with
  | Leaf it => [itemElem it]
  | Node f => flattenForest f
  end
with flattenForest (f : forest) : list slice :=
  match f with
  | One t => flatten t
  | More t f' => flatten t ++ flattenForest f'
  end.

Section Literals.

(** The delimiter, one byte. *)
Variable dl : byte.

(** The literal of a value: an array is its values in braces with the
    delimiter between two of them. *)
Fixpoint render (t : tree) : list byte :=
  match t with
  | Leaf it => itemText it
  | Node f => lbrace :: renderForest f ++ [rbrace]
  end
with renderForest (f : forest) : list byte :=
  match f with
  | One t => render t
  | More t f' => render t ++ dl :: renderForest f'
  end.

(** A bare span can be written as it is: it is not empty, does not begin
    with a brace or a quote, and holds no delimiter and no closing
    brace. *)
Definition itemOk (it : item) : bool :=
  match it with
  | Quoted _ => true
  | Unquoted span =>
      match span with
      | [] => false
      | c :: _ =>
          negb (Byte.eqb c lbrace) && negb (Byte.eqb c dquote)
          && forallb (fun b => negb (Byte.eqb b dl) && negb (Byte.eqb b rbrace))
               span
      end
  end.

(** [hasShape ds t]: the value [t] is rectangular with the dimensions
    [ds], outermost first. *)
Fixpoint hasShape (ds : list Z) (t : tree) : bool :=
  match t, ds with
  | Leaf it, [] => itemOk it
  | Node f, d :: ds' => (d =? forestLength f) && allShape ds' f
  | _, _ => false
  end
with allShape (ds : list Z) (f : forest) : bool :=
  match f with
  | One t => hasShape ds t
  | More t f' => hasShape ds t && allShape ds f'
  end.

(** What follows an element in a literal: the delimiter or a closing
    brace. *)
Definition followsElement (post : list byte) : bool :=
  match post with
  | [] => false
  | c :: _ => Byte.eqb c dl || Byte.eqb c rbrace
  end.

Definition followsTree (t : tree) (post : list byte) : bool :=
  match t with
  | Leaf _ => followsElement post
  | Node _ => true
  end.

End Literals.

(** The number of elements of an array of dimensions [ds]. *)
Definition product (ds : list Z) : Z := fold_right Z.mul 1 ds.

(** *** The braces a literal begins with *)

(** The number of opening braces [src] begins with. *)
Fixpoint leadingBraces (src : list byte) : nat :=
  match src with
  | [] => 0
  | c :: src' => if Byte.eqb c lbrace then S (leadingBraces src') else 0
  end.

(** *** What holds at every turn of the loops of [parseArray] *)

Section ParsingNotions.

Variable src : list byte.
Variable N : nat.

(** What holds of the variables of [parseArray] at every turn of its two
    loops on the input [src] with [N] leading braces: the cursor is in
    the input, [dims] has [N] entries, [depth] is between 0 and [N], the
    counts are in order; [depth] is at least 1 in the [Element] loop; the
    loop after it has an element, or is at the end of the input with
    [depth] at least 1. *)
Definition parsing (l : label) (st : pstate) : Prop :=
  (rest st = skipn (i st) src /\ (i st <= length src)%nat) /\
  (length (dims st) = N /\ depth st <= Z.of_nat N) /\
  countsOk st /\
  match l with
  | Element => 1 <= depth st
  | Delimiter => elems st <> [] \/ (rest st = [] /\ 1 <= depth st)
  end.

(** What the loops may return: a state at the end of the input that
    [parsing] holds of; the error for an unexpected byte, which is the
    byte of [src] at the offset of the error; a panic for the index -1 or
    [N] of [dims]. *)
Definition parsingResult (r : outcome (pstate + error)) : Prop :=
  match r with
  | Returns (inl st) => parsing Delimiter st /\ rest st = []
  | Returns (inr e) =>
      exists (c : byte) (n : nat),
        e = ArrayUnexpected c n /\ nth_error src n = Some c
  | Panics p =>
      p = IndexOutOfRange (-1) N \/ p = IndexOutOfRange (Z.of_nat N) N
  end.

End ParsingNotions.

(** With one dimension, the count in [dims] is the number of elements
    when the [Element] loop takes a turn and after the closing brace, and
    one less between an element and the delimiter or the brace. *)
Definition linear (l : label) (st : pstate) : Prop :=
  match l with
  | Element =>
      depth st = 1 /\ dims st = [Z.of_nat (length (elems st))]
  | Delimiter =>
      (depth st = 1 /\ elems st <> [] /\
       dims st = [Z.of_nat (length (elems st)) - 1])
      \/ (depth st = 0 /\ dims st = [Z.of_nat (length (elems st))])
      \/ (depth st = 1 /\ rest st = [] /\
          dims st = [Z.of_nat (length (elems st))])
  end.

(** [shapesOf dl dss f]: the values of [f] are rectangular, one after the
    other with the dimensions that [dss] lists for it. *)
Fixpoint shapesOf (dl : byte) (dss : list (list Z)) (f : forest) : bool :=
  match f, dss with
  | One t, [ds] => hasShape dl ds t
  | More t f', ds :: dss' => hasShape dl ds t && shapesOf dl dss' f'
  | _, _ => false
  end.

(** *** Array literals written with the encoder *)

(** The bytes of [v] that the encoder escapes. *)
Definition escapedCount (v : list byte) : nat :=
  length (filter (fun c => existsb (Byte.eqb c) [dquote; backslash]) v).

(** The elements of an array literal as a caller of
    [AppendArrayQuotedBytes] writes them into a buffer [b]: one call for
    every value, a comma appended between two of them. *)
Fixpoint appendQuotedElements (b : list byte) (vs : list (list byte))
  : list byte :=
  match vs with
  | [] => b
  | v :: vs' =>
      match vs' with
      | [] => AppendArrayQuotedBytes b v
      | _ :: _ => appendQuotedElements (AppendArrayQuotedBytes b v ++ [comma]) vs'
      end
  end.

(** The literal of the linear array of the values [vs], all quoted. *)
Definition quotedArray (vs : list (list byte)) : list byte :=
  appendQuotedElements [lbrace] vs ++ [rbrace].

(** The forest of the quoted values [v], [vs]. *)
Fixpoint quotedForest (v : list byte) (vs : list (list byte)) : forest :=
  match vs with
  | [] => One (Leaf (Quoted v))
  | w :: ws => More (Leaf (Quoted v)) (quotedForest w ws)
  end.

(** *** Rows and their fields *)

(** A byte that [SplitBytes] takes for a byte of the field wherever it
    reads it: no closing parenthesis, no quote, no comma. *)
Definition plainByte (c : byte) : bool :=
  negb (Byte.eqb c rparen) && negb (Byte.eqb c dquote)
  && negb (Byte.eqb c comma).

(** [elem] after the bytes [f] have been appended one by one. *)
Definition appendAll (e : slice) (f : list byte) : slice :=
  fold_left append f e.

(** A field of a row as it is written: bare, or between quotes. *)
Inductive field : Type :=
| Bare (f : list byte)
| InQuotes (w : list byte).

Definition fieldText (d : field) : list byte :=
  match d with
  | Bare f => f
  | InQuotes w => dquote :: w ++ [dquote]
  end.

(** The bytes of the field that is meant. *)
Definition fieldBytes (d : field) : list byte :=
  match d with
  | Bare f => f
  | InQuotes w => w
  end.

(** The fields that this way of writing can hold: a bare field has plain
    bytes only; a field between quotes is not empty, holds no quote and
    does not end with a backslash. *)
Definition fieldOk (d : field) : bool :=
  match d with
  | Bare f => forallb plainByte f
  | InQuotes w =>
      negb (length w =? 0)%nat
      && forallb (fun c => negb (Byte.eqb c dquote)) w
      && negb (Byte.eqb (last w x00) backslash)
  end.

(** The literal of a row: the first field, a comma before every other
    field, between parentheses. *)
Definition rowLiteral (d : field) (ds : list field) : list byte :=
  lparen :: fieldText d ++ flat_map (fun g => comma :: fieldText g) ds
    ++ [rparen].

(** What holds of the fields of [SplitBytes] at every turn: [depth] is 1
    or 0, and 1 as long as no field is complete; the complete fields
    after the first are not nil, and neither is the field being read
    once there is a complete one. *)
Definition fieldsOk (st : sstate) : Prop :=
  (sdepth st = 1 \/ sdepth st = 0) /\
  match chunks st with
  | [] => sdepth st = 1
  | _ :: tl =>
      Forall (fun c : slice => c <> None) tl
      /\ (sdepth st = 1 -> elem st <> None)
  end.

(** * Properties *)

(** ** The loops of [parseArray], one turn at a time *)

Lemma loops_Element (del : list byte) (st : pstate) :
  loops del Element st =
  match elementTurn del st with
  | Continue st' => loops del Element st'
  | BreakElement st' => loops del Delimiter st'
  | GotoElement st' => loops del Element st'
  | LoopEnd => loops del Delimiter st
  | ReturnError e => Returns (inr e)
  | Panic p => Panics p
  end.
Proof.
  rewrite loops_equation_1.
  destruct (inspect (elementTurn del st)) as [t H].
  destruct t; simpl; rewrite H; reflexivity.
Qed.

Lemma loops_Delimiter (del : list byte) (st : pstate) :
  loops del Delimiter st =
  match delimTurn del st with
  | Continue st' => loops del Delimiter st'
  | BreakElement st' => loops del Delimiter st'
  | GotoElement st' => loops del Element st'
  | LoopEnd => Returns (inl st)
  | ReturnError e => Returns (inr e)
  | Panic p => Panics p
  end.
Proof.
  rewrite loops_equation_2.
  destruct (inspect (delimTurn del st)) as [t H].
  destruct t; simpl; rewrite H; reflexivity.
Qed.

(** ** The encoder, byte by byte *)

Lemma indexAny_None_escaped (v : list byte) :
  indexAny v [dquote; backslash] = None -> escaped v = v.
Proof.
  induction v as [|c v IH]; [reflexivity|].
  cbn [indexAny escaped flat_map]. unfold escapeByte.
  destruct (existsb _ _); [discriminate|].
  destruct (indexAny v _); [discriminate|]. intros _.
  simpl. f_equal. now apply IH.
Qed.

Lemma indexAny_Some_escaped (v : list byte) (n : nat) :
  indexAny v [dquote; backslash] = Some n ->
  escaped v =
  firstn n v ++ [backslash; nth n v x00] ++ escaped (skipn (n + 1) v).
Proof.
  revert n; induction v as [|c v IH]; intros n; [discriminate|].
  cbn [indexAny escaped flat_map]. unfold escapeByte at 1.
  destruct (existsb _ _).
  - intros [= <-]. reflexivity.
  - destruct (indexAny v _) as [m|]; [|discriminate].
    intros [= <-]. simpl. f_equal. now apply IH.
Qed.

Lemma quoteLoop_escaped (b v : list byte) : quoteLoop b v = b ++ escaped v.
Proof.
  funelim (quoteLoop b v).
  - match goal with IH : quoteLoop _ _ = _ ++ escaped _ |- _ => rewrite IH end.
    rewrite (indexAny_Some_escaped v n Hn).
    destruct (0 <? n)%nat eqn:E.
    + now rewrite <- !app_assoc.
    + apply Nat.ltb_ge in E. assert (n = 0)%nat as -> by lia.
      simpl. now rewrite <- !app_assoc.
  - match goal with E : indexAny _ _ = None |- _ =>
      now rewrite (indexAny_None_escaped _ E) end.
Qed.

Lemma AppendArrayQuotedBytes_escaped (b v : list byte) :
  AppendArrayQuotedBytes b v = b ++ dquote :: escaped v ++ [dquote].
Proof.
  unfold AppendArrayQuotedBytes. rewrite quoteLoop_escaped.
  now rewrite <- !app_assoc.
Qed.

(** The quoted branch reads an escaped value back. *)
Lemma scanQuoted_escaped (v post : list byte) (n : nat) (e : list byte) :
  scanQuoted (escaped v ++ dquote :: post) n e false =
  QuotedClosed (e ++ v) (n + length (escaped v) + 1) post.
Proof.
  revert n e; induction v as [|c v IH]; intros n e.
  - simpl. rewrite app_nil_r. f_equal. lia.
  - change (escaped (c :: v)) with (escapeByte c ++ escaped v).
    unfold escapeByte. cbn [existsb].
    destruct (Byte.eqb c dquote) eqn:Q; [|destruct (Byte.eqb c backslash) eqn:B];
      cbn [orb app scanQuoted length].
    + replace (Byte.eqb backslash backslash) with true by reflexivity.
      rewrite IH, <- app_assoc. f_equal. lia.
    + replace (Byte.eqb backslash backslash) with true by reflexivity.
      rewrite IH, <- app_assoc. f_equal. lia.
    + rewrite B, Q, IH, <- app_assoc. f_equal. lia.
Qed.

(** ** C1: the encoder and the quoted branch of the parser *)

Lemma elementTurn_quoted (del : list byte) (v post : list byte)
  (d : Z) (n : nat) (ds : list Z) (es : list slice) :
  elementTurn del
    (mkPstate d n ((dquote :: escaped v ++ [dquote]) ++ post) ds es) =
  BreakElement
    (mkPstate d (n + length (dquote :: escaped v ++ [dquote])) post ds
       (es ++ [Some v])).
Proof.
  unfold elementTurn. cbn [rest depth dims elems i app].
  replace (Byte.eqb dquote lbrace) with false by reflexivity.
  replace (Byte.eqb dquote dquote) with true by reflexivity.
  rewrite <- app_assoc. cbn [app].
  rewrite scanQuoted_escaped. cbn [app length].
  do 2 f_equal. rewrite length_app. simpl. lia.
Qed.

(** C1. For every buffer [b] and every value [v], the empty one included,
    [AppendArrayQuotedBytes b v] is [b] followed by a fragment which the
    quoted branch of the [Element] loop of [parseArray] reads back as the
    element [v], whatever follows the fragment; and the array literal made
    of that one fragment parses to the single element [v]. *)
Theorem quoted_element_roundtrip (b v : list byte) :
  exists frag : list byte,
    AppendArrayQuotedBytes b v = b ++ frag /\
    (forall (del post : list byte) (d : Z) (n : nat) (ds : list Z)
            (es : list slice),
        elementTurn del (mkPstate d n (frag ++ post) ds es) =
        BreakElement
          (mkPstate d (n + length frag) post ds (es ++ [Some v]))) /\
    parseArray (lbrace :: frag ++ [rbrace]) [comma] =
    Returns ([1], [Some v], None).
Proof.
  exists (dquote :: escaped v ++ [dquote]). split; [|split].
  - apply AppendArrayQuotedBytes_escaped.
  - intros. apply elementTurn_quoted.
  - unfold parseArray, parseStructure.
    replace (negb (Byte.eqb lbrace lbrace)) with false by reflexivity.
    cbn [openLoop app].
    replace (Byte.eqb lbrace lbrace) with true by reflexivity.
    replace (Byte.eqb dquote lbrace) with false by reflexivity.
    replace (Byte.eqb dquote rbrace) with false by reflexivity.
    cbn [repeat].
    rewrite loops_Element.
    change (dquote :: (escaped v ++ [dquote]) ++ [rbrace])
      with ((dquote :: escaped v ++ [dquote]) ++ [rbrace]).
    rewrite elementTurn_quoted.
    rewrite loops_Delimiter. unfold delimTurn at 1.
    cbn [rest depth dims elems i hasPrefix].
    replace (Byte.eqb rbrace comma) with false by reflexivity.
    replace (Byte.eqb rbrace rbrace) with true by reflexivity.
    cbn [andb]. change (updateIndex [0] (0 + 1 - 1) Z.succ) with (Returns [1]).
    cbv iota beta.
    rewrite loops_Delimiter. unfold delimTurn at 1. cbn [rest bind].
    reflexivity.
Qed.

(** ** The reader of [SplitBytes] *)

(** [Peek] after a successful read moves nowhere; at the end of the input
    it moves one byte back. It panics only from position 0 at the end of
    the input. *)
Lemma Peek_spec (r : reader) :
  0 < pos r ->
  Peek r =
  if Z.of_nat (length (s r)) <=? pos r
  then Returns ((x00, None), mkReader (s r) (pos r - 1))
  else Returns ((nth (Z.to_nat (pos r)) (s r) x00, None),
                mkReader (s r) (pos r)).
Proof.
  intros Hpos. unfold Peek, ReadByte, SeekCurrent.
  destruct (Z.of_nat (length (s r)) <=? pos r) eqn:E; cbn [pos s].
  - destruct (pos r + -1 <? 0) eqn:F; [lia|].
    do 3 f_equal. 
  - destruct (pos r + 1 + -1 <? 0) eqn:F; [lia|].
    do 3 f_equal. lia.
Qed.

Lemma Next_inside (r : reader) :
  pos r < Z.of_nat (length (s r)) ->
  Next r = ((nth (Z.to_nat (pos r)) (s r) x00, None),
            mkReader (s r) (pos r + 1)).
Proof.
  intros H. unfold Next, ReadByte.
  destruct (Z.of_nat (length (s r)) <=? pos r) eqn:E; [lia|reflexivity].
Qed.

Lemma Next_at_end (r : reader) :
  Z.of_nat (length (s r)) <= pos r -> Next r = ((x00, Some EOF), r).
Proof.
  intros H. unfold Next, ReadByte.
  destruct (Z.of_nat (length (s r)) <=? pos r) eqn:E; [reflexivity|lia].
Qed.

(** A turn at the end of the input: the byte 0 is appended to [elem], and
    nothing else changes. *)
Lemma splitTurn_at_end (st : sstate) :
  Z.of_nat (length (s (rd st))) <= pos (rd st) ->
  splitTurn st =
  Returns (inl (mkSstate (rd st) (chunks st) (append (elem st) x00) x00
                  (sdepth st) (quoted st))).
Proof.
  intros H. unfold splitTurn. rewrite (Next_at_end _ H). reflexivity.
Qed.

(** A turn inside the input is the [switch] on the byte under the reader. *)
Lemma splitTurn_inside (st : sstate) :
  pos (rd st) < Z.of_nat (length (s (rd st))) ->
  splitTurn st =
  bind (splitSwitch st (nth (Z.to_nat (pos (rd st))) (s (rd st)) x00)
          (mkReader (s (rd st)) (pos (rd st) + 1)))
       (fun st' => Returns (inl st')).
Proof.
  intros H. unfold splitTurn. rewrite (Next_inside _ H). reflexivity.
Qed.

(** The [switch] never panics after a read, keeps the input, and lowers
    [depth] only on a closing parenthesis. *)
Lemma splitSwitch_returns (st : sstate) (b : byte) (r1 : reader) :
  0 < pos r1 ->
  exists st',
    splitSwitch st b r1 = Returns st' /\
    s (rd st') = s r1 /\ 0 <= pos (rd st') /\
    (sdepth st' = sdepth st \/ b = rparen).
Proof.
  intros Hpos. unfold splitSwitch.
  destruct (Byte.eqb b rparen) eqn:Ep.
  { apply Byte.byte_dec_bl in Ep.
    destruct (negb (quoted st)); eexists; (split; [reflexivity|]);
      cbn [rd s pos sdepth]; repeat split; auto; lia. }
  destruct (Byte.eqb b dquote) eqn:Hq.
  { clear Ep Hq. rewrite (Peek_spec _ Hpos).
    destruct (Z.of_nat (length (s r1)) <=? pos r1) eqn:E; cbn [bind].
    - clear E. replace (Byte.eqb x00 dquote) with false by reflexivity.
      destruct (negb (Byte.eqb (prev st) backslash));
        eexists; (split; [reflexivity|]);
        cbn [rd s pos sdepth]; repeat split; auto; lia.
    - clear E.
      destruct (Byte.eqb (nth (Z.to_nat (pos r1)) (s r1) x00) dquote).
      + unfold Next, ReadByte. cbn [s pos].
        destruct (Z.of_nat (length (s r1)) <=? pos r1);
          eexists; (split; [reflexivity|]);
          cbn [rd s pos sdepth]; repeat split; auto; lia.
      + destruct (negb (Byte.eqb (prev st) backslash));
          eexists; (split; [reflexivity|]);
          cbn [rd s pos sdepth]; repeat split; auto; lia. }
  destruct (Byte.eqb b comma).
  { destruct (negb (quoted st)); eexists; (split; [reflexivity|]);
      cbn [rd s pos sdepth]; repeat split; auto; lia. }
  eexists; (split; [reflexivity|]);
    cbn [rd s pos sdepth]; repeat split; auto; lia.
Qed.

(** Every turn from a position that is not negative goes on to a next
    state: no error is returned and nothing panics. *)
Lemma splitTurn_returns (st : sstate) :
  0 <= pos (rd st) ->
  exists st',
    splitTurn st = Returns (inl st') /\
    s (rd st') = s (rd st) /\ 0 <= pos (rd st') /\
    (sdepth st' = sdepth st \/ In rparen (s (rd st))).
Proof.
  intros Hpos.
  destruct (Z.of_nat (length (s (rd st))) <=? pos (rd st)) eqn:E.
  - apply Z.leb_le in E. rewrite (splitTurn_at_end _ E).
    eexists; split; [reflexivity|]. cbn [rd sdepth]. auto.
  - apply Z.leb_gt in E. rewrite (splitTurn_inside _ E).
    destruct (splitSwitch_returns st
                (nth (Z.to_nat (pos (rd st))) (s (rd st)) x00)
                (mkReader (s (rd st)) (pos (rd st) + 1)))
      as (st' & -> & Hs & Hp & Hd); [cbn [pos]; lia|].
    exists st'. cbn [bind]. repeat split; auto.
    destruct Hd as [Hd|Hd]; [now left|right].
    rewrite <- Hd. apply nth_In. lia.
Qed.

(** ** The loop of [SplitBytes] *)

(** When the loop returns, it returns [chunks] and no error. *)
Lemma splitLoop_returns_chunks (fuel : nat) (st : sstate)
  (r : outcome (list slice * option error)) :
  0 <= pos (rd st) ->
  splitLoop fuel st = Some r ->
  exists cs : list slice, r = Returns (cs, None).
Proof.
  revert st; induction fuel as [|fuel IH]; intros st Hpos H; [discriminate|].
  cbn [splitLoop] in H. destruct (sdepth st =? 0).
  - injection H as <-. now exists (chunks st).
  - destruct (splitTurn_returns st Hpos) as (st' & E & _ & Hp & _).
    rewrite E in H. now apply (IH st').
Qed.

(** With no closing parenthesis in the input the loop never returns:
    [depth] stays what it is, and at the end of the input every read gives
    the byte 0 again. *)
Lemma splitLoop_unclosed (fuel : nat) (st : sstate) :
  0 <= pos (rd st) ->
  ~ In rparen (s (rd st)) ->
  sdepth st <> 0 ->
  splitLoop fuel st = None.
Proof.
  revert st; induction fuel as [|fuel IH]; intros st Hpos Hin Hd;
    [reflexivity|].
  cbn [splitLoop]. destruct (sdepth st =? 0) eqn:E; [lia|].
  destruct (splitTurn_returns st Hpos) as (st' & -> & Hs & Hp & Hd').
  apply IH; auto.
  - now rewrite Hs.
  - destruct Hd' as [->|Hd']; [assumption|contradiction].
Qed.

Lemma SplitBytes_unclosed (fuel : nat) (body : list byte) :
  ~ In rparen body -> SplitBytes fuel (lparen :: body) = None.
Proof.
  intros Hin. unfold SplitBytes.
  replace (negb (Byte.eqb lparen lparen)) with false by reflexivity.
  apply splitLoop_unclosed; unfold splitInit; cbn [rd s pos sdepth]; auto;
    lia.
Qed.

(** ** C3: [SplitBytes] on an input with no closing parenthesis *)

(** C3. On the input [(] the loop of [SplitBytes] has not returned after
    any number of turns: at the end of the input [Next] gives the byte 0
    with [io.EOF], which the loop takes for a byte of the field, and
    [depth] stays 1. The same holds for [(abc] and for every input that
    begins with [(] and holds no [)]. *)
Theorem SplitBytes_never_returns :
  (forall fuel : nat, SplitBytes fuel (bs "(") = None) /\
  (forall fuel : nat, SplitBytes fuel (bs "(abc") = None) /\
  (forall (fuel : nat) (body : list byte),
      existsb (Byte.eqb rparen) body = false ->
      SplitBytes fuel (lparen :: body) = None).
Proof.
  assert (G : forall (fuel : nat) (body : list byte),
             existsb (Byte.eqb rparen) body = false ->
             SplitBytes fuel (lparen :: body) = None).
  { intros fuel body H. apply SplitBytes_unclosed. intros Hin.
    assert (existsb (Byte.eqb rparen) body = true); [|congruence].
    apply existsb_exists. exists rparen. split; [assumption|reflexivity]. }
  repeat split; intros; apply G; auto.
Qed.

Lemma SplitBytes_never_returns_witness :
  existsb (Byte.eqb rparen) (bs "1,2") = false /\
  SplitBytes 1000 (lparen :: bs "1,2") = None.
Proof.
  split; [reflexivity|].
  apply (proj2 (proj2 SplitBytes_never_returns) 1000%nat (bs "1,2")).
  reflexivity.
Defined.

(** ** Bytes after the closing parenthesis *)

Lemma inside_dec (st : sstate) : inside st \/ ~ inside st.
Proof.
  unfold inside.
  destruct (Z_lt_dec (pos (rd st) + 1) (Z.of_nat (length (s (rd st)))));
    [left; now left|].
  destruct (Z_lt_dec (pos (rd st)) (Z.of_nat (length (s (rd st)))));
    [|right; intros [?|[? _]]; lia].
  destruct (Byte.byte_eq_dec
              (nth (Z.to_nat (pos (rd st))) (s (rd st)) x00) dquote).
  - right; intros [?|[_ ?]]; [lia|contradiction].
  - left; now right.
Qed.

(** A turn that reaches the end of the input leaves the reader where it
    was and [depth] as it was. *)
Lemma splitTurn_stuck (st : sstate) :
  0 <= pos (rd st) -> ~ inside st ->
  exists st',
    splitTurn st = Returns (inl st') /\
    rd st' = rd st /\ sdepth st' = sdepth st.
Proof.
  intros Hpos Hout. unfold inside in Hout.
  destruct (Z_lt_dec (pos (rd st)) (Z.of_nat (length (s (rd st)))))
    as [Hlt|Hge].
  - rewrite (splitTurn_inside _ Hlt).
    destruct (Byte.byte_eq_dec
                (nth (Z.to_nat (pos (rd st))) (s (rd st)) x00) dquote)
      as [->|Hne]; [|exfalso; apply Hout; now right].
    unfold splitSwitch.
    replace (Byte.eqb dquote rparen) with false by reflexivity.
    replace (Byte.eqb dquote dquote) with true by reflexivity.
    rewrite Peek_spec by (cbn [pos]; lia). cbn [s pos].
    destruct (Z.of_nat (length (s (rd st))) <=? pos (rd st) + 1) eqn:E;
      [|exfalso; apply Hout; left; lia].
    cbn [bind]. replace (Byte.eqb x00 dquote) with false by reflexivity.
    replace (pos (rd st) + 1 - 1) with (pos (rd st)) by lia.
    destruct (negb (Byte.eqb (prev st) backslash));
      eexists; (split; [reflexivity|]); cbn [rd sdepth];
      split; auto; now destruct (rd st).
  - rewrite splitTurn_at_end by lia.
    eexists; split; [reflexivity|]. cbn [rd sdepth]. auto.
Qed.

Lemma splitLoop_stuck (fuel : nat) (st : sstate) :
  0 <= pos (rd st) -> ~ inside st -> sdepth st <> 0 ->
  splitLoop fuel st = None.
Proof.
  revert st; induction fuel as [|fuel IH]; intros st Hpos Hout Hd;
    [reflexivity|].
  cbn [splitLoop]. destruct (sdepth st =? 0) eqn:E; [lia|].
  destruct (splitTurn_stuck st Hpos Hout) as (st' & -> & Hr & Hd').
  apply IH.
  - now rewrite Hr.
  - unfold inside in *. now rewrite Hr.
  - now rewrite Hd'.
Qed.



(** ** C10: bytes after the closing parenthesis are not read *)



(** ** C9: the one error of [SplitBytes] *)

(** C9. An input that is empty or does not begin with [(] makes
    [SplitBytes] return at once, with no fields and the error that names
    the expected byte [(] and the offset 0. On an input that begins with
    [(], a call that returns gives a list of fields and no error, and does
    not panic. So a call that returns an error is a call on an input that
    does not begin with [(]. *)
Theorem SplitBytes_error_iff (fuel : nat) (src : list byte) :
  (beginsWithParen src = false ->
   SplitBytes fuel src = Some (Returns ([], Some (TypeExpected lparen 0)))) /\
  (beginsWithParen src = true ->
   forall r : outcome (list slice * option error),
     SplitBytes fuel src = Some r ->
     exists cs : list slice, r = Returns (cs, None)).
Proof.
  destruct src as [|c body]; cbn [beginsWithParen SplitBytes].
  - split; [reflexivity|discriminate].
  - destruct (Byte.eqb c lparen); cbn [negb]; split;
      try discriminate; try reflexivity.
    intros _ r H.
    apply splitLoop_returns_chunks in H; [exact H|cbn; lia].
Qed.

Lemma SplitBytes_error_iff_witness :
  SplitBytes 10 (bs "1,2)") =
  Some (Returns ([], Some (TypeExpected lparen 0))) /\
  exists cs : list slice,
    Returns ([Some (bs "1"); Some (bs "2")], @None error) = Returns (cs, None).
Proof.
  split.
  - apply (proj1 (SplitBytes_error_iff 10 (bs "1,2)"))). reflexivity.
  - apply (proj2 (SplitBytes_error_iff 10 (bs "(1,2)")) eq_refl).
    reflexivity.
Defined.

(** ** C2: the index [depth-1] of [dims] *)

(** C2. [parseArray] panics on [{1}}] and on [{1,{2}}]. On the first, the
    loop after [Element] meets a second closing brace at [depth] 0 and
    increments [dims[-1]]; on the second, the [Element] loop meets an
    opening brace at [depth] 1 with [len(dims)] 1 and writes [dims[1]].
    Neither turn tests [depth], as the [Close] loop does. *)
Theorem parseArray_index_panics :
  parseArray (bs "{1}}") (bs ",") = Panics (IndexOutOfRange (-1) 1) /\
  parseArray (bs "{1,{2}}") (bs ",") = Panics (IndexOutOfRange 1 1).
Proof.
  split; vm_compute; reflexivity.
Qed.

(** ** C7: the linear entry point *)

Lemma string_app_assoc (a b c : string) :
  (a ++ (b ++ c) = (a ++ b) ++ c)%string.
Proof.
  induction a as [|x a IH]; [reflexivity|]. cbn [String.append].
  now rewrite IH.
Qed.

Lemma replaceSpaces_app (a b new : string) :
  replaceSpaces (a ++ b) new
  = (replaceSpaces a new ++ replaceSpaces b new)%string.
Proof.
  induction a as [|c a IH]; [reflexivity|]. cbn [String.append replaceSpaces].
  destruct (Ascii.eqb c " "); rewrite IH; [|reflexivity].
  apply string_app_assoc.
Qed.

(** A number is written without a space. *)
Lemma replaceSpaces_sprintInt (z : Z) (new : string) :
  replaceSpaces (sprintInt z) new = sprintInt z.
Proof.
  assert (U : forall u, replaceSpaces (NilEmpty.string_of_uint u) new
                        = NilEmpty.string_of_uint u).
  { induction u; cbn [NilEmpty.string_of_uint replaceSpaces];
      [reflexivity|..];
      match goal with
      | |- context [Ascii.eqb ?c " "%char] =>
          replace (Ascii.eqb c " "%char) with false by reflexivity
      end; now rewrite IHu. }
  assert (V : forall u, replaceSpaces (NilZero.string_of_uint u) new
                        = NilZero.string_of_uint u).
  { intros u. destruct u; try apply U. reflexivity. }
  unfold sprintInt, NilZero.string_of_int.
  destruct (Z.to_int z) as [u|u]; [apply V|].
  cbn [replaceSpaces].
  replace (Ascii.eqb "-" " ") with false by reflexivity. now rewrite V.
Qed.

(** The shape in the error: [fmt.Sprint] of [dims] with every space
    replaced by a closing and an opening bracket is every dimension in
    brackets of its own. *)
Lemma replaceSpaces_sprintInts (ds : list Z) :
  replaceSpaces (sprintInts ds) "][" = shapeText ds.
Proof.
  unfold sprintInts, shapeText. cbn [String.append replaceSpaces].
  replace (Ascii.eqb "[" " ") with false by reflexivity. f_equal.
  rewrite replaceSpaces_app. f_equal.
  induction ds as [|d ds IH]; [reflexivity|].
  destruct ds as [|d' ds]; [apply replaceSpaces_sprintInt|].
  cbn [map String.concat] in *.
  rewrite !replaceSpaces_app, replaceSpaces_sprintInt, IH. reflexivity.
Qed.

(** C7. When [parseArray] returns [dims] and [elems] with no error,
    [ScanLinearArray] returns no elements and the error "cannot convert"
    with the shape [dims] written as [[d1][d2]...] and the type name [typ]
    if [dims] has more than one entry, and returns [elems] with no error
    otherwise; an error of [parseArray] it returns as it is. So
    [{{1,2},{3,4}}] for [int4] fails with the shape [[2][2]], and [{1,2,3}]
    gives the three elements. *)
Theorem ScanLinearArray_dimensions :
  (forall (src del : list byte) (typ : string) (ds : list Z)
          (es : list slice),
      parseArray src del = Returns (ds, es, None) ->
      ScanLinearArray src del typ =
      if (1 <? length ds)%nat
      then Returns ([], Some (CannotConvert (shapeText ds) typ))
      else Returns (es, None)) /\
  (forall (src del : list byte) (typ : string) (ds : list Z)
          (es : list slice) (e : error),
      parseArray src del = Returns (ds, es, Some e) ->
      ScanLinearArray src del typ = Returns ([], Some e)) /\
  ScanLinearArray (bs "{{1,2},{3,4}}") (bs ",") "int4" =
  Returns ([], Some (CannotConvert "[2][2]" "int4")) /\
  ScanLinearArray (bs "{1,2,3}") (bs ",") "int4" =
  Returns ([Some (bs "1"); Some (bs "2"); Some (bs "3")], None).
Proof.
  split; [|split; [|split; vm_compute; reflexivity]].
  - intros src del typ ds es H. unfold ScanLinearArray. rewrite H.
    cbn [bind]. now rewrite replaceSpaces_sprintInts.
  - intros src del typ ds es e H. unfold ScanLinearArray. now rewrite H.
Qed.

Lemma ScanLinearArray_dimensions_witness :
  ScanLinearArray (bs "{{1},{2}}") (bs ",") "text" =
  Returns ([], Some (CannotConvert "[2][1]" "text")) /\
  ScanLinearArray (bs "{1,2") (bs ",") "text" =
  Returns ([], Some (ArrayExpected rbrace 4)).
Proof.
  split.
  - apply (proj1 ScanLinearArray_dimensions
             (bs "{{1},{2}}") (bs ",") "text"%string [2; 1]
             [Some (bs "1"); Some (bs "2")]).
    vm_compute; reflexivity.
  - apply (proj1 (proj2 ScanLinearArray_dimensions)
             (bs "{1,2") (bs ",") "text"%string [1] [Some (bs "1")]).
    vm_compute; reflexivity.
Defined.

(** ** C5: the NULL element *)

Lemma scanQuoted_consumed (r : list byte) (n : nat) (e : list byte)
  (esc : bool) (e' : list byte) (n' : nat) (r' : list byte) :
  scanQuoted r n e esc = QuotedClosed e' n' r' ->
  exists text : list byte, r = text ++ r'.
Proof.
  revert n e esc; induction r as [|c r IH]; cbn [scanQuoted];
    intros n e esc H; [discriminate|].
  assert (K : forall m a b, scanQuoted r m a b = QuotedClosed e' n' r' ->
                            exists text, c :: r = text ++ r').
  { intros m a b0 Hs. destruct (IH _ _ _ Hs) as [text ->].
    now exists (c :: text). }
  destruct esc; [now apply K in H|].
  destruct (Byte.eqb c backslash); [now apply K in H|].
  destruct (Byte.eqb c dquote); [|now apply K in H].
  injection H as _ _ <-. now exists [c].
Qed.

Lemma scanUnquoted_consumed (del r : list byte) (n : nat) (sp : list byte)
  (sp' : list byte) (n' : nat) (r' : list byte) :
  scanUnquoted del r n sp = UnquotedFound sp' n' r' ->
  exists text : list byte, r = text ++ r' /\ sp' = sp ++ text.
Proof.
  revert n sp; induction r as [|c r IH]; cbn [scanUnquoted];
    intros n sp H; [discriminate|].
  destruct (hasPrefix (c :: r) del || Byte.eqb c rbrace).
  - injection H as <- _ <-. exists []. now rewrite app_nil_r.
  - destruct (IH _ _ H) as (text & -> & ->).
    exists (c :: text). now rewrite <- app_assoc.
Qed.

Lemma unquotedElem_None (span : list byte) :
  unquotedElem span = None <-> span = bs "NULL".
Proof.
  unfold unquotedElem, bytesEqual.
  destruct (list_eq_dec Byte.byte_eq_dec span (bs "NULL")); split;
    congruence.
Qed.

(** C5. Whenever a turn of the [Element] loop records an element, the
    bytes [text] it has read for it and the element [e] it has appended are
    such that [e] is nil, the NULL element, exactly when [text] is the four
    bytes [NULL]; an element read from a quoted text is never nil. So
    [{1,NULL,3}] has a nil second element, while the quoted [NULL] and the
    unquoted [null] are the elements of these four bytes. *)
Theorem parseArray_null_element :
  (forall (del : list byte) (st st' : pstate),
      elementTurn del st = BreakElement st' ->
      exists (text : list byte) (e : slice),
        rest st = text ++ rest st' /\
        elems st' = elems st ++ [e] /\
        (e = None <-> text = bs "NULL") /\
        (hd x00 text = dquote -> e <> None)) /\
  parseArray (bs "{1,NULL,3}") (bs ",") =
  Returns ([3], [Some (bs "1"); None; Some (bs "3")], None) /\
  parseArray (lbrace :: dquote :: bs "NULL" ++ [dquote; rbrace]) (bs ",") =
  Returns ([1], [Some (bs "NULL")], None) /\
  parseArray (bs "{null}") (bs ",") =
  Returns ([1], [Some (bs "null")], None).
Proof.
  split; [|repeat split; vm_compute; reflexivity].
  intros del [d n r ds es] st'. unfold elementTurn.
  cbn [rest depth dims elems i].
  destruct r as [|c r]; [discriminate|].
  destruct (Byte.eqb c lbrace) eqn:Hl.
  { destruct (updateIndex _ _ _); discriminate. }
  destruct (Byte.eqb c dquote) eqn:Hq.
  { apply Byte.byte_dec_bl in Hq; subst c.
    destruct (scanQuoted r (S n) [] false) as [e n' r'|n'] eqn:E;
      [|discriminate].
    intros [= <-]. cbn [rest elems].
    destruct (scanQuoted_consumed _ _ _ _ _ _ _ E) as [text ->].
    exists (dquote :: text), (Some e). repeat split; discriminate. }
  destruct (scanUnquoted del (c :: r) n []) as [sp n' r'|n'] eqn:E;
    [|discriminate].
  destruct (length sp =? 0)%nat; [discriminate|].
  intros [= <-]. cbn [rest elems].
  destruct (scanUnquoted_consumed _ _ _ _ _ _ _ E) as (text & Hr & ->).
  exists text, (unquotedElem text). cbn [app].
  repeat split; try apply unquotedElem_None; auto.
  intros Hd. destruct text as [|c' text]; [discriminate|].
  cbn [hd] in Hd. injection Hr as Hc _. subst c c'. discriminate.
Qed.

Lemma parseArray_null_element_witness :
  exists (text : list byte) (e : slice),
    bs "NULL}" = text ++ bs "}" /\
    [@None (list byte)] = [] ++ [e] /\
    (e = None <-> text = bs "NULL") /\
    (hd x00 text = dquote -> e <> None).
Proof.
  apply (proj1 parseArray_null_element (bs ",")
           (mkPstate 1 1 (bs "NULL}") [0] [])
           (mkPstate 1 5 (bs "}") [0] [None])).
  reflexivity.
Defined.

(** ** Invariants of the loops of [parseArray] *)

(** A property kept by every turn holds when the loops are left, and they
    are left at the end of the input. *)
Lemma loops_invariant (del : list byte) (Inv : pstate -> Prop) :
  (forall (l : label) (st : pstate),
      Inv st ->
      match turnOf del l st with
      | Continue st' | BreakElement st' | GotoElement st' => Inv st'
      | _ => True
      end) ->
  forall (l : label) (st st' : pstate),
    Inv st -> loops del l st = Returns (inl st') ->
    Inv st' /\ rest st' = [].
Proof.
  intros Hturn l st st'. remember (weight l st) as w eqn:Hw.
  revert l st Hw. induction w as [w IH] using lt_wf_ind.
  intros l st -> Hinv.
  pose proof (Hturn l st Hinv) as Ht.
  pose proof (turnOf_weight del l st) as Hd.
  destruct l; [rewrite loops_Element|rewrite loops_Delimiter];
    cbn [turnOf] in Ht, Hd.
  - destruct (elementTurn del st) as [s1|s1|s1| |e|p];
      try discriminate; intros H.
    + exact (IH _ Hd Element s1 eq_refl Ht H).
    + exact (IH _ Hd Delimiter s1 eq_refl Ht H).
    + exact (IH _ Hd Element s1 eq_refl Ht H).
    + refine (IH _ _ Delimiter st eq_refl Hinv H).
      unfold weight; rewrite Hd; lia.
  - destruct (delimTurn del st) as [s1|s1|s1| |e|p];
      try discriminate; intros H.
    + exact (IH _ Hd Delimiter s1 eq_refl Ht H).
    + exact (IH _ Hd Delimiter s1 eq_refl Ht H).
    + exact (IH _ Hd Element s1 eq_refl Ht H).
    + injection H as <-. now split.
Qed.

Lemma updateNth_Forall (P : Z -> Prop) (f : Z -> Z) (l : list Z) (k : nat) :
  (forall x, P x -> P (f x)) -> Forall P l -> Forall P (updateNth l k f).
Proof.
  intros Hf H; revert k; induction H as [|x l Hx Hl IH]; intros k;
    [destruct k; constructor|].
  destruct k; cbn [updateNth]; constructor; auto.
Qed.

Lemma skipn_updateNth_above (f : Z -> Z) (l : list Z) (k m : nat) :
  (k < m)%nat -> skipn m (updateNth l k f) = skipn m l.
Proof.
  revert k m; induction l as [|x l IH]; intros k m H.
  - destruct k; reflexivity.
  - destruct m as [|m]; [lia|]. destruct k as [|k]; cbn [updateNth skipn].
    + reflexivity.
    + apply IH. lia.
Qed.

Lemma skipn_updateNth_at (f : Z -> Z) (l : list Z) (k : nat) :
  (k < length l)%nat ->
  skipn k (updateNth l k f) = f (nth k l 0) :: skipn (S k) l.
Proof.
  revert k; induction l as [|x l IH]; intros k H; [cbn in H; lia|].
  destruct k as [|k]; [reflexivity|].
  cbn [updateNth skipn nth]. rewrite IH by (cbn in H; lia). reflexivity.
Qed.

Lemma Forall_skipn_S (P : Z -> Prop) (l : list Z) (k : nat) :
  Forall P (skipn k l) -> Forall P (skipn (S k) l).
Proof.
  revert k; induction l as [|x l IH]; intros k H; [constructor|].
  destruct k as [|k]; cbn [skipn] in *.
  - now inversion H.
  - now apply IH.
Qed.

Lemma updateIndex_Returns (l l' : list Z) (idx : Z) (f : Z -> Z) :
  updateIndex l idx f = Returns l' ->
  0 <= idx < Z.of_nat (length l) /\ l' = updateNth l (Z.to_nat idx) f.
Proof.
  unfold updateIndex.
  destruct (0 <=? idx) eqn:A; [|discriminate].
  destruct (idx <? Z.of_nat (length l)) eqn:B; [|discriminate].
  cbn [andb]. intros [= <-]. apply Z.leb_le in A. apply Z.ltb_lt in B.
  auto.
Qed.

Lemma countsOk_turn (del : list byte) (l : label) (st : pstate) :
  countsOk st ->
  match turnOf del l st with
  | Continue st' | BreakElement st' | GotoElement st' => countsOk st'
  | _ => True
  end.
Proof.
  intros (Hd & Hn & Hp). destruct st as [d n r ds es].
  cbn [depth dims] in *. destruct l; cbn [turnOf].
  - unfold elementTurn. cbn [rest depth dims elems i].
    destruct r as [|c r]; [exact I|].
    destruct (Byte.eqb c lbrace).
    { destruct (updateIndex ds (d + 1 - 1) (fun _ => 0)) as [ds'|p] eqn:U;
        [|exact I].
      apply updateIndex_Returns in U as [Hi ->].
      replace (d + 1 - 1) with d in * by lia.
      repeat split; cbn [depth dims].
      - lia.
      - apply updateNth_Forall; auto; intros; lia.
      - replace (Z.to_nat (d + 1)) with (S (Z.to_nat d)) by lia.
        rewrite skipn_updateNth_above by lia. now apply Forall_skipn_S. }
    destruct (Byte.eqb c dquote).
    { destruct (scanQuoted _ _ _ _); repeat split; assumption. }
    destruct (scanUnquoted _ _ _ _); [|repeat split; assumption].
    destruct (length span =? 0)%nat; [exact I|repeat split; assumption].
  - unfold delimTurn. cbn [rest depth dims elems i].
    destruct r as [|c r]; [exact I|].
    destruct (hasPrefix (c :: r) del).
    { destruct (updateIndex ds (d - 1) Z.succ) as [ds'|p] eqn:U; [|exact I].
      apply updateIndex_Returns in U as [Hi ->].
      repeat split; cbn [depth dims].
      - lia.
      - apply updateNth_Forall; auto; intros; lia.
      - rewrite skipn_updateNth_above by lia. assumption. }
    destruct (Byte.eqb c rbrace); [|exact I].
    destruct (updateIndex ds (d - 1) Z.succ) as [ds'|p] eqn:U; [|exact I].
    apply updateIndex_Returns in U as [Hi ->].
    repeat split; cbn [depth dims].
    + lia.
    + apply updateNth_Forall; auto; intros; lia.
    + rewrite skipn_updateNth_at by lia. constructor.
      * assert (0 <= nth (Z.to_nat (d - 1)) ds 0); [|lia].
        apply (proj1 (Forall_forall _ ds) Hn), nth_In. lia.
      * replace (S (Z.to_nat (d - 1))) with (Z.to_nat d) by lia.
        assumption.
Qed.

Lemma openLoop_depth (r : list byte) (d : Z) (n : nat) (x : openExit)
  (d' : Z) (n' : nat) (r' : list byte) :
  openLoop r d n = (x, (d', n', r')) ->
  d' - Z.of_nat n' = d - Z.of_nat n.
Proof.
  revert d n; induction r as [|c r IH]; cbn [openLoop]; intros d n H.
  - now injection H as _ <- <- _.
  - destruct (Byte.eqb c lbrace); [apply IH in H; lia|].
    destruct (Byte.eqb c rbrace); now injection H as _ <- <- _.
Qed.

(** At the label [Close] the counts are in order, and either the input is
    used up or [dims] is still nil. *)
Lemma parseStructure_countsOk (src del : list byte) (st : pstate) :
  parseStructure src del = Returns (inl st) ->
  countsOk st /\ (rest st = [] \/ dims st = []).
Proof.
  unfold parseStructure. destruct src as [|c src]; [discriminate|].
  destruct (negb (Byte.eqb c lbrace)); [discriminate|].
  destruct (openLoop (c :: src) 0 0) as [x [[d n] r]] eqn:O.
  apply openLoop_depth in O.
  assert (Hd : d = Z.of_nat n) by lia. subst d.
  destruct x.
  - intros H.
    apply (loops_invariant del countsOk (countsOk_turn del)) in H.
    + destruct H as [H1 H2]. auto.
    + repeat split; cbn [depth dims].
      * lia.
      * apply Forall_forall. intros z Hz. apply repeat_spec in Hz. lia.
      * rewrite Nat2Z.id, skipn_all2 by (rewrite repeat_length; lia).
        constructor.
  - intros [= <-]. split; [|now right].
    repeat split; cbn [depth dims]; [lia|constructor|].
    rewrite skipn_nil. constructor.
Qed.

Lemma checkDims_positive (n : Z) (ds : list Z) (err : option error) :
  Forall (fun d => 1 <= d) ds ->
  checkDims n ds err =
  Returns (if existsb (fun d => negb (Z.rem n d =? 0)) ds
           then Some DimensionMismatch else err).
Proof.
  intros H; revert err; induction H as [|d ds Hd _ IH]; intros err;
    [reflexivity|].
  cbn [checkDims existsb]. destruct (d =? 0) eqn:E; [lia|].
  rewrite IH. destruct (negb (Z.rem n d =? 0)); cbn [orb]; [|reflexivity].
  now destruct (existsb _ ds).
Qed.

Lemma checkDims_None (n : Z) (ds : list Z) (err : option error) :
  checkDims n ds err = Returns None ->
  err = None /\ Forall (fun d => d <> 0 /\ Z.rem n d = 0) ds.
Proof.
  revert err; induction ds as [|d ds IH]; cbn [checkDims]; intros err H.
  - injection H as ->. split; [reflexivity|constructor].
  - destruct (d =? 0) eqn:E; [discriminate|].
    apply IH in H as [He Hf].
    destruct (Z.rem n d =? 0) eqn:R; cbn [negb] in He; [|discriminate].
    split; [assumption|]. constructor; [|assumption].
    split; lia.
Qed.

(** ** C6: the element count and the dimensions *)

(** C6. When [parseArray] returns without error, no entry of the
    dimensions it returns is 0 and each of them divides the number of
    elements it returns. When the structure of the literal parses and its
    braces balance, and some entry of the dimensions does not divide the
    number of elements, [parseArray] returns the error "multidimensional
    arrays must have elements with matching dimensions"; so it does on
    [{{1,2},{3}}]. *)
Theorem parseArray_dimension_check :
  (forall (src del : list byte) (ds : list Z) (es : list slice),
      parseArray src del = Returns (ds, es, None) ->
      Forall (fun d => d <> 0 /\ Z.rem (Z.of_nat (length es)) d = 0) ds) /\
  (forall (src del : list byte) (st : pstate) (n : nat),
      parseStructure src del = Returns (inl st) ->
      closeLoop (rest st) (depth st) (i st) = inl (0, n) ->
      Exists (fun d => Z.rem (Z.of_nat (length (elems st))) d <> 0)
        (dims st) ->
      parseArray src del =
      Returns (dims st, elems st, Some DimensionMismatch)) /\
  parseArray (bs "{{1,2},{3}}") (bs ",") =
  Returns ([2; 1], [Some (bs "1"); Some (bs "2"); Some (bs "3")],
           Some DimensionMismatch).
Proof.
  split; [|split; [|vm_compute; reflexivity]].
  - intros src del ds es. unfold parseArray.
    destruct (parseStructure src del) as [[st|e]|p]; cbn [bind];
      try discriminate.
    unfold closeAndCheck.
    destruct (closeLoop _ _ _) as [[d' n']|e]; [|discriminate].
    destruct (0 <? d'); [discriminate|].
    destruct (checkDims _ _ _) as [err|p] eqn:C; cbn [bind];
      [|discriminate].
    intros [= <- <- ->]. now apply checkDims_None in C.
  - intros src del st n Hs Hc Hex. unfold parseArray. rewrite Hs.
    cbn [bind]. unfold closeAndCheck. rewrite Hc.
    change (0 <? 0) with false. cbv iota.
    destruct (parseStructure_countsOk _ _ _ Hs) as [(Hd & Hn & Hp) Hr].
    assert (Hpos : Forall (fun d => 1 <= d) (dims st)).
    { destruct Hr as [Hr|Hr]; [|rewrite Hr; constructor].
      rewrite Hr in Hc. cbn [closeLoop] in Hc. injection Hc as Hz _.
      rewrite Hz in Hp. exact Hp. }
    rewrite (checkDims_positive _ _ _ Hpos).
    replace (existsb _ (dims st)) with true; [reflexivity|].
    symmetry. apply existsb_exists. apply Exists_exists in Hex.
    destruct Hex as (d & Hin & Hne). exists d. split; [assumption|].
    destruct (Z.rem _ d =? 0) eqn:E; [|reflexivity].
    apply Z.eqb_eq in E. contradiction.
Qed.

Lemma parseArray_dimension_check_witness :
  Forall (fun d => d <> 0 /\ Z.rem (Z.of_nat (length
            [Some (bs "1"); Some (bs "2"); Some (bs "3"); Some (bs "4")])) d
          = 0) [2; 2] /\
  parseArray (bs "{{1,2},{3}}") (bs ",") =
  Returns ([2; 1], [Some (bs "1"); Some (bs "2"); Some (bs "3")],
           Some DimensionMismatch).
Proof.
  split.
  - apply (proj1 parseArray_dimension_check (bs "{{1,2},{3,4}}") (bs ",")).
    vm_compute; reflexivity.
  - apply (proj1 (proj2 parseArray_dimension_check)
             (bs "{{1,2},{3}}") (bs ",")
             (mkPstate 0 11 [] [2; 1]
                [Some (bs "1"); Some (bs "2"); Some (bs "3")]) 11%nat).
    + vm_compute; reflexivity.
    + reflexivity.
    + apply Exists_cons_hd. vm_compute. discriminate.
Defined.

(** ** C8: where [SplitBytes] splits *)

Lemma splitSwitch_flush (st st' : sstate) (b : byte) (r1 : reader) :
  0 < pos r1 ->
  splitSwitch st b r1 = Returns st' ->
  (chunks st' = chunks st /\ sdepth st' = sdepth st) \/
  (chunks st' = chunks st ++ [elem st] /\ quoted st = false /\
   ((b = comma /\ sdepth st' = sdepth st) \/
    (b = rparen /\ sdepth st' = sdepth st - 1))).
Proof.
  intros Hpos. unfold splitSwitch.
  destruct (Byte.eqb b rparen) eqn:Ep.
  { apply Byte.byte_dec_bl in Ep.
    destruct (quoted st); cbn [negb]; intros [= <-]; cbn [chunks sdepth];
      [left|right]; auto. }
  clear Ep. destruct (Byte.eqb b dquote).
  { rewrite (Peek_spec _ Hpos).
    destruct (Z.of_nat (length (s r1)) <=? pos r1); cbn [bind].
    - replace (Byte.eqb x00 dquote) with false by reflexivity.
      destruct (negb (Byte.eqb (prev st) backslash));
        intros [= <-]; left; auto.
    - destruct (Byte.eqb (nth (Z.to_nat (pos r1)) (s r1) x00) dquote).
      + destruct (Next _) as [? r3]. intros [= <-]; left; auto.
      + destruct (negb (Byte.eqb (prev st) backslash));
          intros [= <-]; left; auto. }
  destruct (Byte.eqb b comma) eqn:Ec.
  { apply Byte.byte_dec_bl in Ec.
    destruct (quoted st); cbn [negb]; intros [= <-]; cbn [chunks sdepth];
      [left|right]; auto. }
  intros [= <-]; left; auto.
Qed.

Lemma splitTurn_flush (st st' : sstate) :
  0 <= pos (rd st) ->
  splitTurn st = Returns (inl st') ->
  (chunks st' = chunks st /\ sdepth st' = sdepth st) \/
  (chunks st' = chunks st ++ [elem st] /\ quoted st = false /\
   ((byteAt st 0 = comma /\ sdepth st' = sdepth st) \/
    (byteAt st 0 = rparen /\ sdepth st' = sdepth st - 1))).
Proof.
  intros Hpos.
  destruct (Z_lt_dec (pos (rd st)) (Z.of_nat (length (s (rd st)))))
    as [Hlt|Hge].
  - rewrite (splitTurn_inside _ Hlt).
    destruct (splitSwitch st _ _) as [st1|p] eqn:E; [|discriminate].
    cbn [bind]. intros [= <-].
    apply splitSwitch_flush in E; [|cbn [pos]; lia].
    unfold byteAt. now rewrite Z.add_0_r.
  - rewrite splitTurn_at_end by lia. intros [= <-]. now left.
Qed.

Lemma splitTurn_comma (st : sstate) :
  0 <= pos (rd st) < Z.of_nat (length (s (rd st))) ->
  byteAt st 0 = comma ->
  splitTurn st =
  Returns (inl (if quoted st
                then after st 1 comma (chunks st) (append (elem st) comma)
                       true
                else after st 1 comma (chunks st ++ [elem st]) (Some [])
                       false)).
Proof.
  intros Hpos Hb. unfold byteAt in Hb. rewrite Z.add_0_r in Hb.
  rewrite splitTurn_inside by lia. rewrite Hb. unfold splitSwitch, after.
  replace (Byte.eqb comma rparen) with false by reflexivity.
  replace (Byte.eqb comma dquote) with false by reflexivity.
  replace (Byte.eqb comma comma) with true by reflexivity.
  destruct (quoted st); reflexivity.
Qed.

Lemma splitTurn_quote (st : sstate) :
  0 <= pos (rd st) -> pos (rd st) + 1 < Z.of_nat (length (s (rd st))) ->
  byteAt st 0 = dquote ->
  splitTurn st =
  Returns (inl (if Byte.eqb (byteAt st 1) dquote
                then after st 2 dquote (chunks st)
                       (append (elem st) dquote) (quoted st)
                else if Byte.eqb (prev st) backslash
                then after st 1 dquote (chunks st)
                       (append (elem st) dquote) (quoted st)
                else after st 1 dquote (chunks st) (elem st)
                       (negb (quoted st)))).
Proof.
  intros Hpos Hlt Hb. unfold byteAt in *. rewrite Z.add_0_r in Hb.
  rewrite splitTurn_inside by lia. rewrite Hb. unfold splitSwitch, after.
  replace (Byte.eqb dquote rparen) with false by reflexivity.
  replace (Byte.eqb dquote dquote) with true by reflexivity.
  rewrite Peek_spec by (cbn [pos]; lia). cbn [s pos].
  destruct (Z.of_nat (length (s (rd st))) <=? pos (rd st) + 1) eqn:E;
    [apply Z.leb_le in E; lia|].
  cbn [bind].
  destruct (Byte.eqb (nth (Z.to_nat (pos (rd st) + 1)) (s (rd st)) x00)
              dquote).
  - unfold Next, ReadByte. cbn [s pos]. rewrite E.
    replace (pos (rd st) + 1 + 1) with (pos (rd st) + 2) by lia.
    reflexivity.
  - destruct (Byte.eqb (prev st) backslash); reflexivity.
Qed.

(** More turns do not change what the loop has returned. *)
Lemma splitLoop_more_fuel (fuel fuel' : nat) (st : sstate)
  (r : outcome (list slice * option error)) :
  (fuel <= fuel')%nat ->
  splitLoop fuel st = Some r -> splitLoop fuel' st = Some r.
Proof.
  revert fuel' st; induction fuel as [|fuel IH]; intros fuel' st Hle H;
    [discriminate|].
  destruct fuel' as [|fuel']; [lia|]. cbn [splitLoop] in *.
  destruct (sdepth st =? 0); [exact H|].
  destruct (splitTurn st) as [[st'|e]|p]; try exact H.
  apply IH; [lia|exact H].
Qed.

Lemma SplitBytes_more_fuel (fuel fuel' : nat) (src : list byte)
  (r : outcome (list slice * option error)) :
  (fuel <= fuel')%nat ->
  SplitBytes fuel src = Some r -> SplitBytes fuel' src = Some r.
Proof.
  intros Hle. unfold SplitBytes. destruct src as [|c src]; [auto|].
  destruct (negb (Byte.eqb c lparen)); [auto|].
  now apply splitLoop_more_fuel.
Qed.

(** The loop takes its turns at [depth] 1: nothing raises [depth], and
    the turn that lowers it brings it to 0. *)
Lemma reached_depth (body : list byte) (st : sstate) :
  reached body st ->
  (sdepth st = 1 \/ sdepth st = 0) /\ 0 <= pos (rd st) /\ s (rd st) = body.
Proof.
  induction 1 as [|st st' _ (Hd & Hp & Hs) Hne Ht].
  - cbn. repeat split; auto; lia.
  - destruct (splitTurn_returns st Hp) as (st1 & E & Hs1 & Hp1 & _).
    rewrite Ht in E. injection E as <-.
    repeat split; [|assumption|congruence].
    destruct (splitTurn_flush st st' Hp Ht)
      as [[_ D]|(_ & _ & [[_ D]|[_ D]])]; lia.
Qed.

(** C8. A turn of the loop of [SplitBytes] completes a field only on a
    comma or a closing parenthesis read outside a quoted region; [depth]
    is 1 from the start and changes only when the closing parenthesis
    brings it to 0, which ends the loop. A comma outside a quoted region
    completes the field and starts an empty one, a comma inside is a byte
    of the field. A quote followed by a quote adds one quote to the field
    and passes both; any other quote that does not follow a backslash
    switches the quoted region on or off and adds nothing to the field.
    So the literal of the three fields [1], quoted [a,b] and [3] has the
    fields [1], [a,b], [3], and the one whose quoted field holds [a], two
    quotes and [b] has the fields [1], [a] quote [b], and [3], however many
    turns the loop is given beyond those it takes. Every turn of a call is
    taken at [depth] 1: an opening parenthesis inside a field does not
    raise it and is a byte of the field, so [(a,(b,c),d)] has the fields
    [a], [(b] and [c]. *)
Theorem SplitBytes_splits_on_commas :
  (forall st st' : sstate,
      0 <= pos (rd st) ->
      splitTurn st = Returns (inl st') ->
      (chunks st' = chunks st /\ sdepth st' = sdepth st) \/
      (chunks st' = chunks st ++ [elem st] /\ quoted st = false /\
       ((byteAt st 0 = comma /\ sdepth st' = sdepth st) \/
        (byteAt st 0 = rparen /\ sdepth st' = sdepth st - 1)))) /\
  (forall st : sstate,
      0 <= pos (rd st) < Z.of_nat (length (s (rd st))) ->
      byteAt st 0 = comma ->
      splitTurn st =
      Returns (inl (if quoted st
                    then after st 1 comma (chunks st)
                           (append (elem st) comma) true
                    else after st 1 comma (chunks st ++ [elem st])
                           (Some []) false))) /\
  (forall st : sstate,
      0 <= pos (rd st) ->
      pos (rd st) + 1 < Z.of_nat (length (s (rd st))) ->
      byteAt st 0 = dquote ->
      splitTurn st =
      Returns (inl (if Byte.eqb (byteAt st 1) dquote
                    then after st 2 dquote (chunks st)
                           (append (elem st) dquote) (quoted st)
                    else if Byte.eqb (prev st) backslash
                    then after st 1 dquote (chunks st)
                           (append (elem st) dquote) (quoted st)
                    else after st 1 dquote (chunks st) (elem st)
                           (negb (quoted st))))) /\
  (forall fuel : nat,
      (12 <= fuel)%nat ->
      SplitBytes fuel
        (bs "(1," ++ [dquote] ++ bs "a,b" ++ [dquote] ++ bs ",3)") =
      Some (Returns ([Some (bs "1"); Some (bs "a,b"); Some (bs "3")],
                     None))) /\
  (forall fuel : nat,
      (12 <= fuel)%nat ->
      SplitBytes fuel
        (bs "(1," ++ [dquote] ++ bs "a" ++ [dquote; dquote] ++ bs "b"
           ++ [dquote] ++ bs ",3)") =
      Some (Returns ([Some (bs "1"); Some (bs "a" ++ [dquote] ++ bs "b");
                      Some (bs "3")], None))) /\
  (forall (body : list byte) (st : sstate),
      reached body st -> sdepth st <> 0 -> sdepth st = 1) /\
  (forall fuel : nat,
      (12 <= fuel)%nat ->
      SplitBytes fuel (bs "(a,(b,c),d)") =
      Some (Returns ([Some (bs "a"); Some (bs "(b"); Some (bs "c")], None))).
Proof.
  split; [exact splitTurn_flush|].
  split; [exact splitTurn_comma|].
  split; [exact splitTurn_quote|].
  split; [|split; [|split]]; try (intros fuel Hle;
    apply (SplitBytes_more_fuel 12 fuel _ _ Hle); vm_compute; reflexivity).
  intros body st Hr Hne. apply reached_depth in Hr as [[H|H] _]; [exact H|].
  contradiction.
Qed.

Lemma SplitBytes_splits_on_commas_witness :
  SplitBytes 12
    (bs "(1," ++ [dquote] ++ bs "a,b" ++ [dquote] ++ bs ",3)") =
  Some (Returns ([Some (bs "1"); Some (bs "a,b"); Some (bs "3")], None)) /\
  splitTurn (mkSstate (mkReader (bs "1,2)") 1) [] (Some (bs "1")) x31 1
               false) =
  Returns (inl (mkSstate (mkReader (bs "1,2)") 2) [Some (bs "1")]
                  (Some []) comma 1 false)) /\
  splitTurn (splitInit (dquote :: bs "a)")) =
  Returns (inl (mkSstate (mkReader (dquote :: bs "a)") 1) [] None dquote 1
                  true)) /\
  sdepth (splitInit (bs "a)")) = 1.
Proof.
  split; [|split; [|split]].
  - apply (proj1 (proj2 (proj2 (proj2 SplitBytes_splits_on_commas))) 12%nat).
    apply Nat.le_refl.
  - apply (proj1 (proj2 SplitBytes_splits_on_commas)
             (mkSstate (mkReader (bs "1,2)") 1) [] (Some (bs "1")) x31 1
                false)).
    + cbn. lia.
    + reflexivity.
  - apply (proj1 (proj2 (proj2 SplitBytes_splits_on_commas))
             (splitInit (dquote :: bs "a)"))).
    + cbn. lia.
    + cbn. lia.
    + reflexivity.
  - apply (proj1 (proj2 (proj2 (proj2 (proj2 (proj2
             SplitBytes_splits_on_commas)))))
             (bs "a)") (splitInit (bs "a)"))).
    + apply reached_init.
    + cbn. lia.
Defined.

(** ** C4: shape and elements of a nested literal *)

Example parseArray_empty :
  parseArray (bs "{}") (bs ",") = Returns ([], [], None).
Proof. vm_compute; reflexivity. Qed.

Example parseArray_linear :
  parseArray (bs "{1,2,3}") (bs ",") =
  Returns ([3], [Some (bs "1"); Some (bs "2"); Some (bs "3")], None).
Proof. vm_compute; reflexivity. Qed.

Example parseArray_not_an_array :
  parseArray (bs "[1,2]") (bs ",") =
  Returns ([], [], Some (ArrayExpected lbrace 0)).
Proof. vm_compute; reflexivity. Qed.

Lemma updateNth_app (f : Z -> Z) (pre suf : list Z) (x : Z) :
  updateNth (pre ++ x :: suf) (length pre) f = pre ++ f x :: suf.
Proof.
  induction pre as [|p pre IH]; [reflexivity|].
  cbn [app length updateNth]. now rewrite IH.
Qed.

Lemma updateIndex_app (f : Z -> Z) (pre suf : list Z) (x idx : Z) :
  idx = Z.of_nat (length pre) ->
  updateIndex (pre ++ x :: suf) idx f = Returns (pre ++ f x :: suf).
Proof.
  intros ->. unfold updateIndex. rewrite length_app. cbn [length].
  destruct (0 <=? Z.of_nat (length pre)) eqn:A;
    [|apply Z.leb_gt in A; lia].
  destruct (Z.of_nat (length pre)
            <? Z.of_nat (length pre + S (length suf))) eqn:B;
    [|apply Z.ltb_ge in B; lia].
  cbn [andb]. now rewrite Nat2Z.id, updateNth_app.
Qed.

Section LiteralParsing.

(** The delimiter is one byte that is no brace and no quote. *)
Variable dl : byte.
Hypothesis dl_lbrace : dl <> lbrace.
Hypothesis dl_rbrace : dl <> rbrace.
Hypothesis dl_dquote : dl <> dquote.

Lemma eqb_neq (a b : byte) : a <> b -> Byte.eqb a b = false.
Proof.
  intros H. destruct (Byte.eqb a b) eqn:E; [|reflexivity].
  apply Byte.byte_dec_bl in E. contradiction.
Qed.

Lemma scanUnquoted_plain (sp post : list byte) (n : nat) (acc : list byte) :
  forallb (fun b => negb (Byte.eqb b dl) && negb (Byte.eqb b rbrace)) sp
  = true ->
  followsElement dl post = true ->
  scanUnquoted [dl] (sp ++ post) n acc =
  UnquotedFound (acc ++ sp) (n + length sp) post.
Proof.
  intros Hsp Hpost. revert n acc.
  induction sp as [|c sp IH]; intros n acc.
  - destruct post as [|c r]; [discriminate|]. cbn [app scanUnquoted hasPrefix].
    cbn [followsElement] in Hpost. rewrite andb_true_r, Hpost.
    rewrite app_nil_r. f_equal. cbn [length]. lia.
  - cbn [forallb] in Hsp. apply andb_prop in Hsp as [Hc Hsp].
    apply andb_prop in Hc as [Hc1 Hc2].
    apply negb_true_iff in Hc1, Hc2.
    cbn [app scanUnquoted hasPrefix]. rewrite andb_true_r, Hc1, Hc2.
    cbn [orb]. rewrite (IH Hsp), <- app_assoc. f_equal. cbn [length]. lia.
Qed.

(** The [Element] turn on an item of a literal records its element. *)
Lemma elementTurn_item (it : item) (post : list byte) (d : Z) (n : nat)
  (ds : list Z) (es : list slice) :
  itemOk dl it = true ->
  followsElement dl post = true ->
  elementTurn [dl] (mkPstate d n (itemText it ++ post) ds es) =
  BreakElement
    (mkPstate d (n + length (itemText it)) post ds (es ++ [itemElem it])).
Proof.
  intros Hok Hpost. destruct it as [span|v]; cbn [itemText itemElem].
  - destruct span as [|c sp]; [discriminate|].
    cbn [itemOk] in Hok. apply andb_prop in Hok as [Hc Hall].
    apply andb_prop in Hc as [Hc1 Hc2]. apply negb_true_iff in Hc1, Hc2.
    unfold elementTurn. cbn [rest depth dims elems i app].
    rewrite Hc1, Hc2.
    change (c :: sp ++ post) with ((c :: sp) ++ post).
    rewrite (scanUnquoted_plain (c :: sp) post n [] Hall Hpost).
    reflexivity.
  - apply elementTurn_quoted.
Qed.

Lemma followsTree_rbrace (t : tree) (post : list byte) :
  followsTree dl t (rbrace :: post) = true.
Proof.
  destruct t; [|reflexivity]. cbn. apply orb_true_r.
Qed.

Lemma followsTree_dl (t : tree) (post : list byte) :
  followsTree dl t (dl :: post) = true.
Proof.
  destruct t; [|reflexivity]. cbn.
  replace (Byte.eqb dl dl) with true; [reflexivity|].
  symmetry. now apply Byte.byte_dec_lb.
Qed.

(** The turn of the second loop on the closing brace of an array. *)
Lemma delimTurn_close (pre : list Z) (k : Z) (ds : list Z) (n : nat)
  (post : list byte) (es : list slice) :
  delimTurn [dl]
    (mkPstate (Z.of_nat (S (length pre))) n (rbrace :: post)
       (pre ++ k :: ds) es) =
  Continue
    (mkPstate (Z.of_nat (length pre)) (S n) post (pre ++ (k + 1) :: ds) es).
Proof.
  unfold delimTurn. cbn [rest depth dims elems i hasPrefix].
  rewrite (eqb_neq rbrace dl) by congruence. cbn [andb].
  replace (Byte.eqb rbrace rbrace) with true by reflexivity.
  rewrite (updateIndex_app Z.succ pre ds k) by lia.
  do 2 f_equal. lia.
Qed.

(** The turn of the second loop on the delimiter. *)
Lemma delimTurn_delimiter (pre : list Z) (k : Z) (ds : list Z) (n : nat)
  (post : list byte) (es : list slice) :
  delimTurn [dl]
    (mkPstate (Z.of_nat (S (length pre))) n (dl :: post)
       (pre ++ k :: ds) es) =
  GotoElement
    (mkPstate (Z.of_nat (S (length pre))) (n + 1) post
       (pre ++ (k + 1) :: ds) es).
Proof.
  unfold delimTurn. cbn [rest depth dims elems i hasPrefix].
  replace (Byte.eqb dl dl) with true
    by (symmetry; now apply Byte.byte_dec_lb).
  cbn [andb]. rewrite (updateIndex_app Z.succ pre ds k) by lia.
  reflexivity.
Qed.

(** The [Element] turn on the opening brace of a nested array. *)
Lemma elementTurn_open (pre : list Z) (k : Z) (suf : list Z) (n : nat)
  (r : list byte) (es : list slice) :
  elementTurn [dl]
    (mkPstate (Z.of_nat (length pre)) n (lbrace :: r) (pre ++ k :: suf) es) =
  Continue
    (mkPstate (Z.of_nat (S (length pre))) (S n) r (pre ++ 0 :: suf) es).
Proof.
  unfold elementTurn. cbn [rest depth dims elems i].
  replace (Byte.eqb lbrace lbrace) with true by reflexivity.
  rewrite (updateIndex_app (fun _ => 0) pre suf k) by lia.
  do 2 f_equal. lia.
Qed.

Lemma mkPstate_eq (d d' : Z) (n n' : nat) (r r' : list byte)
  (ds ds' : list Z) (es es' : list slice) :
  d = d' -> n = n' -> r = r' -> ds = ds' -> es = es' ->
  mkPstate d n r ds es = mkPstate d' n' r' ds' es'.
Proof. now intros -> -> -> -> ->. Qed.

Ltac same_state :=
  f_equal; apply mkPstate_eq;
  rewrite <- ?app_assoc; cbn [length app]; rewrite ?length_app;
  cbn [length];
  try reflexivity; try lia; try (do 2 f_equal; lia).

(** The loops on the literal of a rectangular value: from the [Element]
    turn at its first byte to the turn of the second loop after its last
    byte, the elements of the value have been appended and the counts of
    its levels are its dimensions. *)
Lemma loops_tree_forest :
  (forall (t : tree) (ds pre suf : list Z) (n : nat) (post : list byte)
          (es : list slice),
      hasShape dl ds t = true ->
      length suf = length ds ->
      followsTree dl t post = true ->
      loops [dl] Element
        (mkPstate (Z.of_nat (length pre)) n (render dl t ++ post)
           (pre ++ suf) es) =
      loops [dl] Delimiter
        (mkPstate (Z.of_nat (length pre)) (n + length (render dl t)) post
           (pre ++ ds) (es ++ flatten t))) /\
  (forall (f : forest) (ds pre : list Z) (k : Z) (suf : list Z) (n : nat)
          (post : list byte) (es : list slice),
      allShape dl ds f = true ->
      length suf = length ds ->
      loops [dl] Element
        (mkPstate (Z.of_nat (S (length pre))) n
           (renderForest dl f ++ rbrace :: post) (pre ++ k :: suf) es) =
      loops [dl] Delimiter
        (mkPstate (Z.of_nat (length pre))
           (n + length (renderForest dl f) + 1) post
           (pre ++ (k + forestLength f) :: ds) (es ++ flattenForest f))).
Proof.
  apply tree_forest_mutind.
  - intros it ds pre suf n post es Hs Hl Hf.
    destruct ds as [|d ds]; [|discriminate].
    destruct suf as [|x suf]; [|discriminate].
    cbn [hasShape followsTree render flatten] in *.
    rewrite loops_Element, (elementTurn_item it post _ n _ es Hs Hf).
    reflexivity.
  - intros f IH ds pre suf n post es Hs Hl _.
    destruct ds as [|d ds]; [discriminate|].
    destruct suf as [|x suf]; [discriminate|].
    cbn [hasShape] in Hs. apply andb_prop in Hs as [Hd Hs].
    apply Z.eqb_eq in Hd. subst d. injection Hl as Hl.
    cbn [render flatten]. rewrite <- app_comm_cons, <- app_assoc.
    cbn [app]. rewrite loops_Element, elementTurn_open.
    rewrite (IH ds pre 0 suf (S n) post es Hs Hl).
    same_state.
  - intros t IH ds pre k suf n post es Hs Hl.
    cbn [allShape renderForest forestLength flattenForest] in *.
    replace (pre ++ k :: suf) with ((pre ++ [k]) ++ suf)
      by (now rewrite <- app_assoc).
    replace (S (length pre)) with (length (pre ++ [k]))
      by (rewrite length_app; cbn [length]; lia).
    rewrite (IH ds (pre ++ [k]) suf n (rbrace :: post) es Hs Hl
               (followsTree_rbrace t post)).
    rewrite loops_Delimiter.
    rewrite <- app_assoc. cbn [app].
    replace (length (pre ++ [k])) with (S (length pre))
      by (rewrite length_app; cbn [length]; lia).
    rewrite delimTurn_close. same_state.
  - intros t IHt f IHf ds pre k suf n post es Hs Hl.
    cbn [allShape renderForest forestLength flattenForest] in *.
    apply andb_prop in Hs as [Hst Hsf].
    replace (pre ++ k :: suf) with ((pre ++ [k]) ++ suf)
      by (now rewrite <- app_assoc).
    replace (S (length pre)) with (length (pre ++ [k]))
      by (rewrite length_app; cbn [length]; lia).
    rewrite <- app_assoc. cbn [app].
    rewrite (IHt ds (pre ++ [k]) suf n
               (dl :: renderForest dl f ++ rbrace :: post) es Hst Hl
               (followsTree_dl t _)).
    rewrite loops_Delimiter.
    rewrite <- app_assoc. cbn [app].
    replace (length (pre ++ [k])) with (S (length pre))
      by (rewrite length_app; cbn [length]; lia).
    rewrite delimTurn_delimiter.
    rewrite (IHf ds pre (k + 1) ds _ post _ Hsf eq_refl).
    same_state.
Qed.

(** The literal of a value of [length ds] levels begins with as many
    opening braces, which the [Open] loop passes. *)
Lemma openLoop_tree_forest :
  (forall (t : tree) (ds : list Z) (post : list byte) (d : Z) (n : nat),
      hasShape dl ds t = true ->
      exists (d' : Z) (r' : list byte),
        openLoop (render dl t ++ post) d n =
        (OpenBreak, (d', (n + length ds)%nat, r'))) /\
  (forall (f : forest) (ds : list Z) (post : list byte) (d : Z) (n : nat),
      allShape dl ds f = true ->
      exists (d' : Z) (r' : list byte),
        openLoop (renderForest dl f ++ post) d n =
        (OpenBreak, (d', (n + length ds)%nat, r'))).
Proof.
  apply tree_forest_mutind.
  - intros it ds post d n Hs. destruct ds as [|d0 ds]; [|discriminate].
    cbn [hasShape render length] in *. rewrite Nat.add_0_r.
    destruct it as [span|v]; cbn [itemText itemOk] in *.
    + destruct span as [|c sp]; [discriminate|].
      apply andb_prop in Hs as [Hc Hall].
      apply andb_prop in Hc as [Hc1 _]. apply negb_true_iff in Hc1.
      cbn [forallb] in Hall. apply andb_prop in Hall as [Hc2 _].
      apply andb_prop in Hc2 as [_ Hc2]. apply negb_true_iff in Hc2.
      cbn [app openLoop]. rewrite Hc1, Hc2. eauto.
    + cbn [app openLoop].
      replace (Byte.eqb dquote lbrace) with false by reflexivity.
      replace (Byte.eqb dquote rbrace) with false by reflexivity.
      eauto.
  - intros f IH ds post d n Hs. destruct ds as [|d0 ds]; [discriminate|].
    cbn [hasShape] in Hs. apply andb_prop in Hs as [_ Hs].
    cbn [render app openLoop].
    replace (Byte.eqb lbrace lbrace) with true by reflexivity.
    rewrite <- app_assoc.
    destruct (IH ds ([rbrace] ++ post) (d + 1) (S n) Hs) as (d' & r' & ->).
    exists d', r'. do 3 f_equal. cbn [length]. lia.
  - intros t IH ds post d n Hs. cbn [allShape renderForest] in *. auto.
  - intros t IHt f _ ds post d n Hs. cbn [allShape renderForest] in *.
    apply andb_prop in Hs as [Hs _]. rewrite <- app_assoc. auto.
Qed.

Lemma openLoop_i (r : list byte) (d : Z) (n : nat) (x : openExit) (d' : Z)
  (n' : nat) (r' : list byte) :
  openLoop r d n = (x, (d', n', r')) -> (n <= n')%nat.
Proof.
  revert d n; induction r as [|c r IH]; cbn [openLoop]; intros d n H.
  - injection H as _ _ <- _. lia.
  - destruct (Byte.eqb c lbrace); [apply IH in H; lia|].
    destruct (Byte.eqb c rbrace); injection H as _ _ <- _; lia.
Qed.

(** The opening braces that the [Open] loop has passed, the [Element]
    loop would have passed to the same state: it writes the 0 that
    [make] has put in [dims]. *)
Lemma loops_after_open (r : list byte) (n N : nat) (es : list slice)
  (d' : Z) (n' : nat) (r' : list byte) :
  openLoop r (Z.of_nat n) n = (OpenBreak, (d', n', r')) ->
  (n' <= N)%nat ->
  loops [dl] Element (mkPstate (Z.of_nat n) n r (repeat 0 N) es) =
  loops [dl] Element (mkPstate d' n' r' (repeat 0 N) es).
Proof.
  revert n; induction r as [|c r IH]; cbn [openLoop]; intros n H Hle.
  - now injection H as <- <- <-.
  - destruct (Byte.eqb c lbrace) eqn:E.
    + apply Byte.byte_dec_bl in E; subst c.
      pose proof (openLoop_i _ _ _ _ _ _ _ H) as Hn.
      replace (Z.of_nat n + 1) with (Z.of_nat (S n)) in H by lia.
      rewrite <- (IH (S n) H Hle). rewrite loops_Element.
      assert (Hrep : repeat 0 N = repeat 0 n ++ 0 :: repeat 0 (N - S n)).
      { replace N with (n + S (N - S n))%nat at 1 by lia.
        now rewrite repeat_app. }
      rewrite Hrep at 1.
      pose proof (elementTurn_open (repeat 0 n) 0 (repeat 0 (N - S n)) n
                    r es) as T.
      rewrite repeat_length in T. rewrite T, <- Hrep. reflexivity.
    + destruct (Byte.eqb c rbrace); [discriminate|].
      now injection H as <- <- <-.
Qed.

Lemma forestLength_pos (f : forest) : 1 <= forestLength f.
Proof. induction f as [t|t f IH]; cbn [forestLength]; lia. Qed.

Lemma flatten_length :
  (forall (t : tree) (ds : list Z),
      hasShape dl ds t = true ->
      Z.of_nat (length (flatten t)) = product ds
      /\ Forall (fun d => 1 <= d) ds) /\
  (forall (f : forest) (ds : list Z),
      allShape dl ds f = true ->
      Z.of_nat (length (flattenForest f)) = forestLength f * product ds
      /\ Forall (fun d => 1 <= d) ds).
Proof.
  apply tree_forest_mutind.
  - intros it ds Hs. destruct ds; [|discriminate]. split; [reflexivity|].
    constructor.
  - intros f IH ds Hs. destruct ds as [|d ds]; [discriminate|].
    cbn [hasShape] in Hs. apply andb_prop in Hs as [Hd Hs].
    apply Z.eqb_eq in Hd. subst d. destruct (IH ds Hs) as [H1 H2].
    cbn [flatten product fold_right]. split; [exact H1|].
    constructor; [apply forestLength_pos|exact H2].
  - intros t IH ds Hs. cbn [allShape flattenForest forestLength] in *.
    destruct (IH ds Hs) as [H1 H2]. split; [lia|exact H2].
  - intros t IHt f IHf ds Hs.
    cbn [allShape flattenForest forestLength] in *.
    apply andb_prop in Hs as [Hst Hsf].
    destruct (IHt ds Hst) as [H1 H2]. destruct (IHf ds Hsf) as [H3 _].
    split; [|exact H2]. rewrite length_app. lia.
Qed.

Lemma product_divisible (ds : list Z) :
  Forall (fun d => 1 <= d) ds ->
  existsb (fun d => negb (Z.rem (product ds) d =? 0)) ds = false.
Proof.
  intros Hpos.
  assert (Hdiv : forall d, In d ds -> (d | product ds)).
  { clear Hpos. induction ds as [|x ds IH]; intros d [].
    - subst x. exists (product ds). cbn [product fold_right].
      apply Z.mul_comm.
    - destruct (IH d H) as [q Hq]. exists (x * q).
      cbn [product fold_right]. fold (product ds). rewrite Hq.
      now rewrite Z.mul_assoc. }
  destruct (existsb _ ds) eqn:E; [|reflexivity].
  apply existsb_exists in E as (d & Hin & Hd).
  apply negb_true_iff, Z.eqb_neq in Hd. exfalso. apply Hd.
  apply Z.rem_divide; [|auto].
  apply (proj1 (Forall_forall _ ds) Hpos) in Hin. lia.
Qed.

Lemma parseStructure_lbrace (r del : list byte) :
  parseStructure (lbrace :: r) del =
  match openLoop (lbrace :: r) 0 0 with
  | (OpenGotoClose, (depth', i', rest')) =>
      Returns (inl (mkPstate depth' i' rest' [] []))
  | (OpenBreak, (depth', i', rest')) =>
      loops del Element (mkPstate depth' i' rest' (repeat 0 i') [])
  end.
Proof. reflexivity. Qed.

(** The literal of a rectangular array parses to its dimensions and its
    elements in row-major order. *)
Lemma parseArray_render (f : forest) (ds : list Z) :
  hasShape dl ds (Node f) = true ->
  parseArray (render dl (Node f)) [dl] =
  Returns (ds, flatten (Node f), None).
Proof.
  intros Hs.
  destruct (proj1 openLoop_tree_forest (Node f) ds [] 0 0%nat Hs)
    as (d' & r' & Ho).
  rewrite app_nil_r in Ho. cbn [Nat.add] in Ho.
  destruct (proj1 flatten_length (Node f) ds Hs) as [Hlen Hpos].
  unfold parseArray.
  replace (parseStructure (render dl (Node f)) [dl])
    with (loops [dl] Element (mkPstate d' (length ds) r'
                                (repeat 0 (length ds)) []))
    by (cbn [render] in *; now rewrite parseStructure_lbrace, Ho).
  rewrite <- (loops_after_open (render dl (Node f)) 0 (length ds) [] d'
                (length ds) r' Ho (Nat.le_refl _)).
  change (Z.of_nat 0) with (Z.of_nat (@length Z [])).
  pose proof (proj1 loops_tree_forest (Node f) ds [] (repeat 0 (length ds))
                0%nat [] [] Hs (repeat_length _ _) eq_refl) as L.
  rewrite app_nil_r in L. cbn [app] in L. rewrite L.
  rewrite loops_Delimiter. cbn [delimTurn rest bind].
  unfold closeAndCheck. cbn [rest depth i dims elems closeLoop length].
  change (0 <? Z.of_nat 0) with false. cbv iota.
  rewrite (checkDims_positive _ _ _ Hpos), Hlen, product_divisible by auto.
  reflexivity.
Qed.

End LiteralParsing.

(** C4. [parseArray] on [{{1,2},{3,4}}] with the delimiter [,] returns the
    dimensions [2,2] and the elements [1], [2], [3], [4]. More generally,
    for a delimiter byte that is no brace and no quote, the literal of any
    rectangular nested array value, with bare, NULL or quoted elements,
    parses to the dimensions of the value, outermost first, and to its
    elements in row-major order. *)
Theorem parseArray_shape_and_elements :
  parseArray (bs "{{1,2},{3,4}}") (bs ",") =
  Returns ([2; 2],
           [Some (bs "1"); Some (bs "2"); Some (bs "3"); Some (bs "4")],
           None) /\
  (forall (dl : byte) (f : forest) (ds : list Z),
      dl <> lbrace -> dl <> rbrace -> dl <> dquote ->
      hasShape dl ds (Node f) = true ->
      parseArray (render dl (Node f)) [dl] =
      Returns (ds, flatten (Node f), None)).
Proof.
  split; [vm_compute; reflexivity|].
  intros dl f ds H1 H2 H3 Hs. apply parseArray_render; assumption.
Qed.

Lemma parseArray_shape_and_elements_witness :
  parseArray
    (bs "{{a,NULL,"
       ++ [dquote] ++ bs "x,y" ++ [backslash; dquote; dquote] ++ bs "},{"
       ++ bs "1,2,3}}")
    [comma] =
  Returns ([2; 3],
           [Some (bs "a"); None; Some (bs "x,y" ++ [dquote]);
            Some (bs "1"); Some (bs "2"); Some (bs "3")],
           None).
Proof.
  apply (proj2 parseArray_shape_and_elements comma
           (More (Node (More (Leaf (Unquoted (bs "a")))
                    (More (Leaf (Unquoted (bs "NULL")))
                       (One (Leaf (Quoted (bs "x,y" ++ [dquote])))))))
              (One (Node (More (Leaf (Unquoted (bs "1")))
                       (More (Leaf (Unquoted (bs "2")))
                          (One (Leaf (Unquoted (bs "3")))))))))
           [2; 3]); try discriminate.
  reflexivity.
Defined.

(** * Further properties of the code *)

(** ** The turns of the loops of [parseArray], case by case *)

Lemma scanQuoted_cursor (r : list byte) (n : nat) (e : list byte)
  (esc : bool) :
  match scanQuoted r n e esc with
  | QuotedClosed _ n' r' =>
      exists text : list byte,
        r = text ++ r' /\ text <> [] /\ n' = (n + length text)%nat
  | QuotedExhausted n' => n' = (n + length r)%nat
  end.
Proof.
  revert n e esc; induction r as [|c r IH]; intros n e esc;
    cbn [scanQuoted length]; [lia|].
  assert (K : forall a b,
             match scanQuoted r (S n) a b with
             | QuotedClosed _ n' r' =>
                 exists text : list byte,
                   c :: r = text ++ r' /\ text <> []
                   /\ n' = (n + length text)%nat
             | QuotedExhausted n' => n' = (n + S (length r))%nat
             end).
  { intros a b. specialize (IH (S n) a b).
    destruct (scanQuoted r (S n) a b) as [e' n' r'|n']; [|lia].
    destruct IH as (text & -> & _ & ->). exists (c :: text).
    repeat split; [discriminate|cbn [length]; lia]. }
  destruct esc; [apply K|].
  destruct (Byte.eqb c backslash); [apply K|].
  destruct (Byte.eqb c dquote); [|apply K].
  exists [c]. repeat split; [discriminate|cbn [length]; lia].
Qed.

Lemma scanUnquoted_cursor (del r : list byte) (n : nat) (sp : list byte) :
  match scanUnquoted del r n sp with
  | UnquotedFound sp' n' r' =>
      exists text : list byte,
        r = text ++ r' /\ sp' = sp ++ text /\ n' = (n + length text)%nat
        /\ r' <> []
  | UnquotedExhausted n' => n' = (n + length r)%nat
  end.
Proof.
  revert n sp; induction r as [|c r IH]; intros n sp;
    cbn [scanUnquoted length]; [lia|].
  destruct (hasPrefix (c :: r) del || Byte.eqb c rbrace).
  - exists []. cbn [app length]. rewrite app_nil_r.
    repeat split; [lia|discriminate].
  - specialize (IH (S n) (sp ++ [c])).
    destruct (scanUnquoted del r (S n) (sp ++ [c])) as [sp' n' r'|n']; [|lia].
    destruct IH as (text & -> & -> & -> & Hr). exists (c :: text).
    rewrite <- app_assoc. repeat split; [cbn [length]; lia|assumption].
Qed.

(** What a turn of the [Element] loop has done, by the way it ends. *)
Lemma elementTurn_cases (del : list byte) (st : pstate) :
  match elementTurn del st with
  | Continue st' =>
      elems st' = elems st /\
      ((rest st = lbrace :: rest st' /\ i st' = S (i st) /\
        depth st' = depth st + 1 /\
        updateIndex (dims st) (depth st) (fun _ => 0) = Returns (dims st'))
       \/
       (rest st <> [] /\ rest st' = [] /\
        i st' = (i st + length (rest st))%nat /\
        depth st' = depth st /\ dims st' = dims st))
  | BreakElement st' =>
      depth st' = depth st /\ dims st' = dims st /\
      exists (text : list byte) (e : slice),
        rest st = text ++ rest st' /\ text <> [] /\
        i st' = (i st + length text)%nat /\
        elems st' = elems st ++ [e]
  | GotoElement _ => False
  | LoopEnd => rest st = []
  | ReturnError e =>
      exists (c : byte) (tl : list byte),
        rest st = c :: tl /\ e = ArrayUnexpected c (i st)
  | Panic p =>
      p = IndexOutOfRange (depth st) (length (dims st)) /\
      ~ (0 <= depth st < Z.of_nat (length (dims st)))
  end.
Proof.
  destruct st as [d n r ds es]. unfold elementTurn.
  cbn [rest depth dims elems i]. destruct r as [|c r]; [reflexivity|].
  destruct (Byte.eqb c lbrace) eqn:Hl.
  { apply Byte.byte_dec_bl in Hl; subst c.
    replace (d + 1 - 1) with d by lia.
    destruct (updateIndex ds d (fun _ => 0)) as [ds'|p] eqn:U.
    - cbn [rest depth dims elems i]. split; [reflexivity|]. left. auto.
    - unfold updateIndex in U.
      destruct ((0 <=? d) && (d <? Z.of_nat (length ds))) eqn:B;
        [discriminate|].
      injection U as <-. split; [reflexivity|].
      apply andb_false_iff in B as [B|B];
        [apply Z.leb_gt in B|apply Z.ltb_ge in B]; lia. }
  destruct (Byte.eqb c dquote).
  { pose proof (scanQuoted_cursor r (S n) [] false) as Hscan.
    destruct (scanQuoted r (S n) [] false) as [e n' r'|n'];
      cbn [rest depth dims elems i].
    - destruct Hscan as (text & -> & _ & ->). repeat split.
      exists (c :: text), (Some e).
      repeat split; [discriminate|cbn [length]; lia].
    - split; [reflexivity|]. right.
      repeat split; [discriminate|cbn [length]; lia]. }
  pose proof (scanUnquoted_cursor del (c :: r) n []) as Hscan.
  destruct (scanUnquoted del (c :: r) n []) as [sp n' r'|n'].
  - destruct Hscan as (text & Hr & Hsp & -> & Hne). cbn [app] in Hsp. subst sp.
    destruct text as [|c' text].
    + cbn [length Nat.eqb app] in *. subst r'. cbn [hd].
      exists c, r. rewrite Nat.add_0_r. auto.
    + cbn [length Nat.eqb rest depth dims elems i]. repeat split.
      exists (c' :: text), (unquotedElem (c' :: text)).
      repeat split; [assumption|discriminate].
  - cbn [rest depth dims elems i]. split; [reflexivity|]. right.
    repeat split; [discriminate|assumption].
Qed.

(** What a turn of the loop after [Element] has done, by the way it
    ends. *)
Lemma delimTurn_cases (del : list byte) (st : pstate) :
  match delimTurn del st with
  | Continue st' =>
      rest st = rbrace :: rest st' /\ i st' = S (i st) /\
      depth st' = depth st - 1 /\ elems st' = elems st /\
      updateIndex (dims st) (depth st - 1) Z.succ = Returns (dims st')
  | GotoElement st' =>
      rest st <> [] /\ rest st = del ++ rest st' /\
      i st' = (i st + length del)%nat /\
      depth st' = depth st /\ elems st' = elems st /\
      updateIndex (dims st) (depth st - 1) Z.succ = Returns (dims st')
  | BreakElement _ => False
  | LoopEnd => rest st = []
  | ReturnError e =>
      exists (c : byte) (tl : list byte),
        rest st = c :: tl /\ e = ArrayUnexpected c (i st)
  | Panic p =>
      p = IndexOutOfRange (depth st - 1) (length (dims st)) /\
      ~ (0 <= depth st - 1 < Z.of_nat (length (dims st)))
  end.
Proof.
  assert (U : forall (ds : list Z) (x : Z) (f : Z -> Z) (p : panic),
             updateIndex ds x f = Panics p ->
             p = IndexOutOfRange x (length ds)
             /\ ~ (0 <= x < Z.of_nat (length ds))).
  { intros ds x f p. unfold updateIndex.
    destruct ((0 <=? x) && (x <? Z.of_nat (length ds))) eqn:B;
      [discriminate|].
    intros [= <-]. split; [reflexivity|].
    apply andb_false_iff in B as [B|B];
      [apply Z.leb_gt in B|apply Z.ltb_ge in B]; lia. }
  assert (P : forall s p : list byte, hasPrefix s p = true ->
                                      s = p ++ skipn (length p) s).
  { intros s0 p; revert s0; induction p as [|x p IH]; intros s0 H;
      [reflexivity|].
    destruct s0 as [|y s0]; [discriminate|]. cbn [hasPrefix] in H.
    apply andb_prop in H as [H1 H2]. apply Byte.byte_dec_bl in H1. subst y.
    cbn [length skipn app]. f_equal. now apply IH. }
  destruct st as [d n r ds es]. unfold delimTurn.
  cbn [rest depth dims elems i]. destruct r as [|c r]; [reflexivity|].
  destruct (hasPrefix (c :: r) del) eqn:H.
  { destruct (updateIndex ds (d - 1) Z.succ) as [ds'|p] eqn:E;
      [|now apply U in E].
    cbn [rest depth dims elems i]. repeat split; [discriminate|].
    now apply P. }
  destruct (Byte.eqb c rbrace) eqn:Hr.
  { apply Byte.byte_dec_bl in Hr; subst c.
    destruct (updateIndex ds (d - 1) Z.succ) as [ds'|p] eqn:E;
      [|now apply U in E].
    cbn [rest depth dims elems i]. auto. }
  exists c, r. auto.
Qed.

(** A rule for the two loops: a property [Inv] of the label and the state
    that every turn keeps shows a property [Q] of what the loops return,
    when the turns that return show it. *)
Lemma loops_rule (del : list byte) (Inv : label -> pstate -> Prop)
  (Q : outcome (pstate + error) -> Prop) :
  (forall st : pstate,
      Inv Element st ->
      match elementTurn del st with
      | Continue st' => Inv Element st'
      | BreakElement st' => Inv Delimiter st'
      | GotoElement st' => Inv Element st'
      | LoopEnd => Inv Delimiter st
      | ReturnError e => Q (Returns (inr e))
      | Panic p => Q (Panics p)
      end) ->
  (forall st : pstate,
      Inv Delimiter st ->
      match delimTurn del st with
      | Continue st' => Inv Delimiter st'
      | BreakElement st' => Inv Delimiter st'
      | GotoElement st' => Inv Element st'
      | LoopEnd => Q (Returns (inl st))
      | ReturnError e => Q (Returns (inr e))
      | Panic p => Q (Panics p)
      end) ->
  forall (l : label) (st : pstate), Inv l st -> Q (loops del l st).
Proof.
  intros He Hd l st. remember (weight l st) as w eqn:Hw.
  revert l st Hw. induction w as [w IH] using lt_wf_ind.
  intros l st -> Hinv.
  pose proof (turnOf_weight del l st) as Hw.
  destruct l; [rewrite loops_Element|rewrite loops_Delimiter];
    cbn [turnOf] in Hw.
  - specialize (He st Hinv).
    destruct (elementTurn del st) as [s1|s1|s1| |e|p]; try assumption.
    + exact (IH _ Hw Element s1 eq_refl He).
    + exact (IH _ Hw Delimiter s1 eq_refl He).
    + exact (IH _ Hw Element s1 eq_refl He).
    + refine (IH _ _ Delimiter st eq_refl He).
      unfold weight; rewrite Hw; lia.
  - specialize (Hd st Hinv).
    destruct (delimTurn del st) as [s1|s1|s1| |e|p]; try assumption.
    + exact (IH _ Hw Delimiter s1 eq_refl Hd).
    + exact (IH _ Hw Delimiter s1 eq_refl Hd).
    + exact (IH _ Hw Element s1 eq_refl Hd).
Qed.

Lemma updateNth_length (l : list Z) (k : nat) (f : Z -> Z) :
  length (updateNth l k f) = length l.
Proof.
  revert k; induction l as [|x l IH]; intros k; [now destruct k|].
  destruct k; cbn [updateNth length]; [reflexivity|now rewrite IH].
Qed.

Lemma skipn_app_length (text r : list byte) (src : list byte) (n : nat) :
  text ++ r = skipn n src -> (n <= length src)%nat ->
  r = skipn (n + length text) src
  /\ (n + length text <= length src)%nat.
Proof.
  intros H Hn. split.
  - rewrite Nat.add_comm, <- skipn_skipn, <- H.
    now rewrite skipn_app, skipn_all, Nat.sub_diag.
  - assert (L : length (text ++ r) = length (skipn n src)) by now rewrite H.
    rewrite length_app, length_skipn in L. lia.
Qed.

Section ParserInvariant.

Variable src : list byte.
Variable N : nat.

Lemma cursor_byte (st : pstate) (c : byte) (tl : list byte) :
  rest st = skipn (i st) src -> rest st = c :: tl ->
  nth_error src (i st) = Some c.
Proof.
  intros H1 H2. rewrite H2 in H1.
  rewrite <- (firstn_skipn (i st) src) at 1.
  assert (L : (i st <= length src)%nat).
  { destruct (Nat.le_gt_cases (i st) (length src)) as [L|L]; [exact L|].
    rewrite skipn_all2 in H1 by lia. discriminate. }
  rewrite nth_error_app2 by (rewrite length_firstn; lia).
  rewrite length_firstn, Nat.min_l, Nat.sub_diag, <- H1 by lia.
  reflexivity.
Qed.

Lemma parsing_loops (del : list byte) (l : label) (st : pstate) :
  parsing src N l st -> parsingResult src N (loops del l st).
Proof.
  apply (loops_rule del (parsing src N) (parsingResult src N)); clear l st.
  - intros st ((Hr & Hi) & (Hl & Hd) & Hc & Hdep).
    pose proof (countsOk_turn del Element st Hc) as Hc'.
    pose proof (elementTurn_cases del st) as T. cbn [turnOf] in Hc'.
    destruct (elementTurn del st) as [s1|s1|s1| |e|p]; cbn [parsingResult].
    + destruct Hc' as (K1 & K2 & K3).
      destruct T as [He [(R & I & D & U)|(Rn & R & I & D & Ds)]].
      * apply updateIndex_Returns in U as [Hb U].
        rewrite R in Hr.
        destruct (skipn_app_length [lbrace] (rest s1) src (i st) Hr Hi)
          as [Hr' Hi'].
        cbn [length] in Hr', Hi'.
        repeat split; try assumption; try lia.
        -- rewrite I. now replace (S (i st)) with (i st + 1)%nat by lia.
        -- rewrite U, updateNth_length. exact Hl.
      * repeat split; try assumption; try lia.
        -- rewrite R, I. symmetry. apply skipn_all2.
           rewrite Hr, length_skipn. lia.
        -- rewrite I, Hr, length_skipn. lia.
        -- congruence.
    + destruct Hc' as (K1 & K2 & K3).
      destruct T as (D & Ds & text & e & R & _ & I & E).
      rewrite R in Hr.
      destruct (skipn_app_length text (rest s1) src (i st) Hr Hi)
        as [Hr' Hi'].
      repeat split; try assumption; try lia; try congruence.
      left. rewrite E. now destruct (elems st).
    + contradiction.
    + destruct Hc as (K1 & K2 & K3). repeat split; try assumption.
      now right.
    + destruct T as (c & tl & R & ->). exists c, (i st).
      split; [reflexivity|]. now apply (cursor_byte st c tl).
    + destruct T as [-> Hb]. right. rewrite Hl.
      assert (depth st = Z.of_nat N) by lia. congruence.
  - intros st ((Hr & Hi) & (Hl & Hd) & Hc & Hdep).
    pose proof (countsOk_turn del Delimiter st Hc) as Hc'.
    pose proof (delimTurn_cases del st) as T. cbn [turnOf] in Hc'.
    destruct (delimTurn del st) as [s1|s1|s1| |e|p]; cbn [parsingResult].
    + destruct Hc' as (K1 & K2 & K3).
      destruct T as (R & I & D & E & U).
      apply updateIndex_Returns in U as [Hb U].
      rewrite R in Hr.
      destruct (skipn_app_length [rbrace] (rest s1) src (i st) Hr Hi)
        as [Hr' Hi'].
      cbn [length] in Hr', Hi'.
      repeat split; try assumption; try lia.
      * rewrite I. now replace (S (i st)) with (i st + 1)%nat by lia.
      * rewrite U, updateNth_length. exact Hl.
      * left. rewrite E. destruct Hdep as [Hdep|[Hdep _]]; [exact Hdep|].
        rewrite Hdep in R. discriminate.
    + contradiction.
    + destruct Hc' as (K1 & K2 & K3).
      destruct T as (Rn & R & I & D & E & U).
      apply updateIndex_Returns in U as [Hb U].
      rewrite R in Hr.
      destruct (skipn_app_length del (rest s1) src (i st) Hr Hi)
        as [Hr' Hi'].
      repeat split; try assumption; try lia; try congruence.
      rewrite U, updateNth_length. exact Hl.
    + split; [|exact T]. destruct Hc as (K1 & K2 & K3).
      repeat split; assumption.
    + destruct T as (c & tl & R & ->). exists c, (i st).
      split; [reflexivity|]. now apply (cursor_byte st c tl).
    + destruct T as [-> Hb]. left. rewrite Hl.
      destruct Hc as (H0 & _). assert (depth st = 0) by lia.
      now replace (depth st - 1) with (-1) by lia.
Qed.

End ParserInvariant.

(** ** What [parseArray] returns, case by case *)

Lemma openLoop_leading (r : list byte) (d : Z) (n : nat) :
  openLoop r d n =
  (if Byte.eqb (hd x00 (skipn (leadingBraces r) r)) rbrace
   then OpenGotoClose else OpenBreak,
   (d + Z.of_nat (leadingBraces r), (n + leadingBraces r)%nat,
    skipn (leadingBraces r) r)).
Proof.
  revert d n; induction r as [|c r IH]; intros d n.
  - cbn. now rewrite Z.add_0_r, Nat.add_0_r.
  - cbn [openLoop leadingBraces]. destruct (Byte.eqb c lbrace) eqn:E.
    + rewrite IH. cbn [skipn]. do 3 f_equal; lia.
    + cbn [skipn hd]. rewrite Z.add_0_r, Nat.add_0_r.
      now destruct (Byte.eqb c rbrace).
Qed.

Lemma leadingBraces_split (src : list byte) :
  src = repeat lbrace (leadingBraces src) ++ skipn (leadingBraces src) src.
Proof.
  induction src as [|c src IH]; [reflexivity|]. cbn [leadingBraces].
  destruct (Byte.eqb c lbrace) eqn:E; [|reflexivity].
  apply Byte.byte_dec_bl in E; subst c. cbn [repeat skipn app]. now f_equal.
Qed.

Lemma leadingBraces_length (src : list byte) :
  (leadingBraces src <= length src)%nat.
Proof.
  induction src as [|c src IH]; cbn [leadingBraces length]; [lia|].
  destruct (Byte.eqb c lbrace); lia.
Qed.

(** The state at the label [Element] or, for the literal of an empty
    array, at the label [Close]. *)
Lemma parseStructure_cases (src del : list byte) :
  (1 <= leadingBraces src)%nat ->
  (Byte.eqb (hd x00 (skipn (leadingBraces src) src)) rbrace = true /\
   parseStructure src del =
   Returns (inl (mkPstate (Z.of_nat (leadingBraces src)) (leadingBraces src)
                   (skipn (leadingBraces src) src) [] [])))
  \/
  (parsing src (leadingBraces src) Element
     (mkPstate (Z.of_nat (leadingBraces src)) (leadingBraces src)
        (skipn (leadingBraces src) src)
        (repeat 0 (leadingBraces src)) []) /\
   parseStructure src del =
   loops del Element
     (mkPstate (Z.of_nat (leadingBraces src)) (leadingBraces src)
        (skipn (leadingBraces src) src)
        (repeat 0 (leadingBraces src)) [])).
Proof.
  intros HN. pose proof (leadingBraces_length src) as HL.
  pose proof (openLoop_leading src 0 0) as O.
  rewrite Z.add_0_l, Nat.add_0_l in O.
  destruct src as [|c src]; [cbn in HN; lia|].
  assert (E : Byte.eqb c lbrace = true).
  { cbn [leadingBraces] in HN. destruct (Byte.eqb c lbrace); [reflexivity|lia]. }
  unfold parseStructure. rewrite E. cbn [negb]. rewrite O.
  set (k := leadingBraces (c :: src)) in *.
  destruct (Byte.eqb (hd x00 (skipn k (c :: src))) rbrace);
    [left; auto|right].
  split; [|reflexivity].
  repeat split; cbn [rest i depth dims elems]; try lia.
  - apply repeat_length.
  - apply Forall_forall. intros z Hz. apply repeat_spec in Hz. lia.
  - rewrite Nat2Z.id, skipn_all2 by (rewrite repeat_length; lia).
    constructor.
Qed.

Lemma closeLoop_cases (r : list byte) (d : Z) (n : nat) :
  0 <= d ->
  match closeLoop r d n with
  | inl (d', n') =>
      r = repeat rbrace (length r) /\ d' = d - Z.of_nat (length r) /\
      n' = (n + length r)%nat /\ 0 <= d'
  | inr e =>
      exists (c : byte) (k : nat),
        e = ArrayUnexpected c (n + k) /\ nth_error r k = Some c
  end.
Proof.
  revert d n; induction r as [|c r IH]; intros d n Hd; cbn [closeLoop].
  - cbn [length repeat]. repeat split; lia.
  - destruct (Byte.eqb c rbrace && (0 <? d)) eqn:E.
    + apply andb_prop in E as [E1 E2]. apply Byte.byte_dec_bl in E1.
      subst c. specialize (IH (d - 1) (S n)).
      destruct (closeLoop r (d - 1) (S n)) as [[d' n']|e].
      * destruct IH as (R & D & I & P); [lia|].
        cbn [length repeat]. repeat split; try lia. now f_equal.
      * destruct IH as (c & k & -> & Hk); [lia|].
        exists c, (S k). split; [f_equal; lia|exact Hk].
    + exists c, 0%nat. rewrite Nat.add_0_r. split; reflexivity.
Qed.

(** The final check of a state the loops have returned. *)
Lemma closeAndCheck_parsed (src : list byte) (N : nat) (st : pstate) :
  parsing src N Delimiter st -> rest st = [] ->
  closeAndCheck st =
  Returns
    (dims st, elems st,
     if 0 <? depth st then Some (ArrayExpected rbrace (length src))
     else if existsb
               (fun d => negb (Z.rem (Z.of_nat (length (elems st))) d =? 0))
               (dims st)
          then Some DimensionMismatch else None)
  /\ (depth st = 0 ->
      elems st <> [] /\ Forall (fun d => 1 <= d) (dims st)).
Proof.
  intros ((Hr & Hi) & (Hl & Hd) & (C1 & C2 & C3) & Hdep) R.
  assert (I : i st = length src).
  { rewrite R in Hr.
    assert (L : length (skipn (i st) src) = 0%nat) by now rewrite <- Hr.
    rewrite length_skipn in L. lia. }
  split.
  - unfold closeAndCheck. rewrite R. cbn [closeLoop]. rewrite I.
    destruct (0 <? depth st) eqn:E; [reflexivity|].
    apply Z.ltb_ge in E. assert (Z0 : depth st = 0) by lia.
    rewrite Z0 in C3. cbn [Z.to_nat skipn] in C3.
    now rewrite (checkDims_positive _ _ _ C3).
  - intros Z0. split.
    + destruct Hdep as [H|[_ H]]; [exact H|lia].
    + rewrite Z0 in C3. exact C3.
Qed.

Lemma parseArray_no_brace (src del : list byte) :
  leadingBraces src = 0%nat ->
  parseArray src del = Returns ([], [], Some (ArrayExpected lbrace 0)).
Proof.
  intros H. unfold parseArray, parseStructure.
  destruct src as [|c src]; [reflexivity|]. cbn [leadingBraces] in H.
  destruct (Byte.eqb c lbrace); [discriminate|reflexivity].
Qed.

(** Every way [parseArray] can end on an input [src], with what it tells
    about [src]. *)
Lemma parseArray_cases (src del : list byte) :
  match parseArray src del with
  | Panics p =>
      (1 <= leadingBraces src)%nat /\
      (p = IndexOutOfRange (-1) (leadingBraces src) \/
       p = IndexOutOfRange (Z.of_nat (leadingBraces src))
             (leadingBraces src))
  | Returns (ds, es, None) =>
      (1 <= leadingBraces src)%nat /\
      ((ds = [] /\ es = [] /\
        src = repeat lbrace (leadingBraces src)
              ++ repeat rbrace (leadingBraces src))
       \/
       (length ds = leadingBraces src /\ es <> [] /\
        Forall (fun d => 1 <= d) ds))
  | Returns (ds, es, Some e) =>
      (leadingBraces src = 0%nat /\ e = ArrayExpected lbrace 0 /\
       ds = [] /\ es = [])
      \/
      ((1 <= leadingBraces src)%nat /\
       ((exists (c : byte) (n : nat),
            e = ArrayUnexpected c n /\ nth_error src n = Some c /\
            ds = [] /\ es = [])
        \/ e = ArrayExpected rbrace (length src)
        \/ (e = DimensionMismatch /\ es <> [] /\
            length ds = leadingBraces src /\
            Exists (fun d => Z.rem (Z.of_nat (length es)) d <> 0) ds)))
  end.
Proof.
  destruct (Nat.eq_dec (leadingBraces src) 0) as [H0|H0].
  { rewrite (parseArray_no_brace src del H0). left. auto. }
  assert (HN : (1 <= leadingBraces src)%nat) by lia. clear H0.
  unfold parseArray.
  destruct (parseStructure_cases src del HN) as [[Hb ->]|[Hp ->]].
  - (* the literal of an empty array *)
    cbn [bind]. unfold closeAndCheck. cbn [rest depth i dims elems].
    pose proof (leadingBraces_split src) as Hs.
    pose proof (closeLoop_cases (skipn (leadingBraces src) src)
                  (Z.of_nat (leadingBraces src)) (leadingBraces src)
                  (Nat2Z.is_nonneg _)) as C.
    destruct (closeLoop _ _ _) as [[d' n']|e].
    + destruct C as (R & D & I & P).
      assert (L : length src
                  = (leadingBraces src
                     + length (skipn (leadingBraces src) src))%nat).
      { rewrite Hs at 1. now rewrite length_app, repeat_length. }
      destruct (0 <? d') eqn:E; cbn [bind checkDims].
      * right. split; [exact HN|]. right. left. congruence.
      * split; [exact HN|]. left. apply Z.ltb_ge in E.
        repeat split. rewrite Hs at 1. f_equal. rewrite R. f_equal. lia.
    + destruct C as (c & k & -> & Hk). right. split; [exact HN|]. left.
      exists c, (leadingBraces src + k)%nat. repeat split.
      assert (A : nth_error
                    (repeat lbrace (leadingBraces src)
                       ++ skipn (leadingBraces src) src)
                    (leadingBraces src + k) = Some c).
      { rewrite nth_error_app2 by (rewrite repeat_length; lia).
        rewrite repeat_length.
        now replace (leadingBraces src + k - leadingBraces src)%nat
          with k by lia. }
      now rewrite <- Hs in A.
  - (* the two loops *)
    pose proof (parsing_loops src (leadingBraces src) del Element _ Hp) as Q.
    destruct (loops del Element _) as [[st|e]|p]; cbn [parsingResult bind] in *.
    + destruct Q as [Hst R].
      destruct (closeAndCheck_parsed src _ st Hst R) as [-> Hz].
      destruct Hst as (_ & (Hl & _) & (C1 & _) & _).
      destruct (0 <? depth st) eqn:E.
      * right. split; [exact HN|]. right. now left.
      * apply Z.ltb_ge in E. destruct Hz as [He Hf]; [lia|].
        destruct (existsb _ (dims st)) eqn:X.
        -- right. split; [exact HN|]. right. right.
           repeat split; try assumption.
           apply existsb_exists in X as (d & Hin & Hd).
           apply Exists_exists. exists d. split; [exact Hin|].
           apply negb_true_iff, Z.eqb_neq in Hd. exact Hd.
        -- split; [exact HN|]. right. auto.
    + destruct Q as (c & n & -> & Hn). right. split; [exact HN|]. left.
      exists c, n. auto.
    + split; [exact HN|exact Q].
Qed.

(** ** The panics of [parseArray] *)

(** X1. [parseArray] panics only on an index of [dims]: the index -1,
    when a closing brace or a delimiter follows the brace that has closed
    the array, or the index [len(dims)], when an opening brace nests
    deeper than the braces the literal begins with. The remainder in its
    last loop never divides by zero. *)
Theorem parseArray_panics_on_index (src del : list byte) (p : panic) :
  parseArray src del = Panics p ->
  (1 <= leadingBraces src)%nat /\
  (p = IndexOutOfRange (-1) (leadingBraces src) \/
   p = IndexOutOfRange (Z.of_nat (leadingBraces src)) (leadingBraces src)).
Proof.
  intros H. pose proof (parseArray_cases src del) as C.
  rewrite H in C. exact C.
Qed.

Lemma parseArray_panics_on_index_witness :
  (1 <= leadingBraces (bs "{{1},{{2}}}"))%nat /\
  (IndexOutOfRange 2 2 = IndexOutOfRange (-1) (leadingBraces (bs "{{1},{{2}}}"))
   \/ IndexOutOfRange 2 2
      = IndexOutOfRange (Z.of_nat (leadingBraces (bs "{{1},{{2}}}")))
          (leadingBraces (bs "{{1},{{2}}}"))).
Proof.
  apply (parseArray_panics_on_index (bs "{{1},{{2}}}") (bs ",")).
  vm_compute; reflexivity.
Defined.

(** ** The errors of [parseArray] *)

(** X2. An error of [parseArray] is one of four. "Expected [{] at offset
    0" says that the input does not begin with an opening brace.
    "Unexpected [c] at offset [n]" names a byte of the input and its
    place: [c] is [src[n]]. "Expected [}]" is always at the offset
    [len(src)], the end of the input. The last is the error for
    dimensions that do not match, which comes with a dimension that does
    not divide the number of elements. With the first two, no dimensions
    and no elements are returned. *)
Theorem parseArray_errors (src del : list byte) (ds : list Z)
  (es : list slice) (e : error) :
  parseArray src del = Returns (ds, es, Some e) ->
  (e = ArrayExpected lbrace 0 /\ leadingBraces src = 0%nat /\
   ds = [] /\ es = [])
  \/ (exists (c : byte) (n : nat),
         e = ArrayUnexpected c n /\ nth_error src n = Some c /\
         ds = [] /\ es = [])
  \/ e = ArrayExpected rbrace (length src)
  \/ (e = DimensionMismatch /\
      Exists (fun d => Z.rem (Z.of_nat (length es)) d <> 0) ds).
Proof.
  intros H. pose proof (parseArray_cases src del) as C. rewrite H in C.
  destruct C as [(H0 & -> & -> & ->)|(_ & [C|[C|(-> & _ & _ & C)]])]; auto.
Qed.

Lemma parseArray_errors_witness :
  (ArrayUnexpected x78 3 = ArrayExpected lbrace 0 /\
   leadingBraces (bs "{1}x") = 0%nat /\ @nil Z = [] /\ @nil slice = [])
  \/ (exists (c : byte) (n : nat),
         ArrayUnexpected x78 3 = ArrayUnexpected c n /\
         nth_error (bs "{1}x") n = Some c /\ @nil Z = [] /\ @nil slice = [])
  \/ ArrayUnexpected x78 3 = ArrayExpected rbrace (length (bs "{1}x"))
  \/ (ArrayUnexpected x78 3 = DimensionMismatch /\
      Exists (fun d => Z.rem (Z.of_nat (length (@nil slice))) d <> 0) []).
Proof.
  apply (parseArray_errors (bs "{1}x") (bs ",")).
  vm_compute; reflexivity.
Defined.

(** ** The dimensions [parseArray] returns *)

(** The dimensions and the elements of a call without error. *)
Lemma parseArray_dims_elems (src del : list byte) (ds : list Z)
  (es : list slice) :
  parseArray src del = Returns (ds, es, None) ->
  (es = [] <-> ds = []) /\
  (es <> [] ->
   length ds = leadingBraces src /\ Forall (fun d => 1 <= d) ds).
Proof.
  intros H. pose proof (parseArray_cases src del) as C. rewrite H in C.
  destruct C as (HN & [(-> & -> & _)|(L & E & F)]).
  - split; [tauto|]. intros K. now elim K.
  - split; [|auto]. split; [contradiction|].
    intros ->. cbn [length] in L. lia.
Qed.

(** X3. When [parseArray] returns without error and with at least one
    element, it returns as many dimensions as the input begins with
    opening braces, each at least 1. It returns elements exactly when it
    returns dimensions. *)
Theorem parseArray_dimension_count (src del : list byte) (ds : list Z)
  (es : list slice) :
  parseArray src del = Returns (ds, es, None) ->
  (es = [] <-> ds = []) /\
  (es <> [] ->
   length ds = leadingBraces src /\ Forall (fun d => 1 <= d) ds).
Proof. apply parseArray_dims_elems. Qed.

Lemma parseArray_dimension_count_witness :
  ([Some (bs "1"); Some (bs "2")] = [] <-> [1; 2] = []) /\
  ([Some (bs "1"); Some (bs "2")] <> [] ->
   length [1; 2] = leadingBraces (bs "{{1,2}}")
   /\ Forall (fun d => 1 <= d) [1; 2]).
Proof.
  apply (parseArray_dimension_count (bs "{{1,2}}") (bs ",")).
  vm_compute; reflexivity.
Defined.

(** ** The literals of the empty array *)

Lemma leadingBraces_braces (n : nat) (r : list byte) :
  hd x00 r <> lbrace -> leadingBraces (repeat lbrace n ++ r) = n.
Proof.
  intros H. induction n as [|n IH]; cbn [repeat app leadingBraces].
  - destruct r as [|c r]; [reflexivity|]. cbn [leadingBraces hd] in *.
    destruct (Byte.eqb c lbrace) eqn:E; [|reflexivity].
    apply Byte.byte_dec_bl in E. contradiction.
  - replace (Byte.eqb lbrace lbrace) with true by reflexivity. now rewrite IH.
Qed.

Lemma closeLoop_braces (n : nat) (d : Z) (k : nat) :
  Z.of_nat n <= d ->
  closeLoop (repeat rbrace n) d k = inl (d - Z.of_nat n, (k + n)%nat).
Proof.
  revert d k; induction n as [|n IH]; intros d k H; cbn [repeat closeLoop].
  - f_equal. f_equal; lia.
  - replace (Byte.eqb rbrace rbrace) with true by reflexivity.
    destruct (0 <? d) eqn:E; [|apply Z.ltb_ge in E; lia].
    cbn [andb]. rewrite IH by lia. f_equal. f_equal; lia.
Qed.

(** X4. [parseArray] returns no dimensions, no elements and no error
    exactly on one or more opening braces followed by as many closing
    braces, whatever the delimiter: these are the literals of the empty
    array. *)
Theorem parseArray_empty_iff (src del : list byte) :
  parseArray src del = Returns ([], [], None) <->
  (1 <= leadingBraces src)%nat /\
  src = repeat lbrace (leadingBraces src)
        ++ repeat rbrace (leadingBraces src).
Proof.
  split.
  - intros H. pose proof (parseArray_cases src del) as C. rewrite H in C.
    destruct C as (HN & [(_ & _ & Hs)|(_ & E & _)]); [auto|now elim E].
  - intros [HN Hs]. set (n := leadingBraces src) in *. rewrite Hs.
    clear Hs.
    assert (L : leadingBraces (repeat lbrace n ++ repeat rbrace n) = n).
    { apply leadingBraces_braces. destruct n; [lia|]. discriminate. }
    unfold parseArray, parseStructure.
    pose proof (openLoop_leading (repeat lbrace n ++ repeat rbrace n) 0 0)
      as O.
    rewrite L, skipn_app, skipn_all2, repeat_length, Nat.sub_diag in O
      by (rewrite repeat_length; lia).
    cbn [app skipn] in O.
    destruct n as [|n]; [lia|]. cbn [repeat app hd] in *.
    replace (Byte.eqb rbrace rbrace) with true in O by reflexivity.
    replace (negb (Byte.eqb lbrace lbrace)) with false by reflexivity.
    rewrite O. cbn [bind]. unfold closeAndCheck.
    cbn [rest depth i dims elems].
    change (rbrace :: repeat rbrace n) with (repeat rbrace (S n)).
    rewrite closeLoop_braces by lia.
    rewrite Z.add_0_l, Z.sub_diag. reflexivity.
Qed.

Lemma parseArray_empty_iff_witness :
  parseArray (bs "{{{}}}") (bs ";") = Returns ([], [], None).
Proof.
  apply (proj2 (parseArray_empty_iff (bs "{{{}}}") (bs ";"))).
  split; [cbn; lia|reflexivity].
Defined.

(** ** Linear arrays *)

Lemma linear_loops (del : list byte) (l : label) (st : pstate) :
  linear l st ->
  match loops del l st with
  | Returns (inl st') =>
      depth st' = 0 -> dims st' = [Z.of_nat (length (elems st'))]
  | _ => True
  end.
Proof.
  apply (loops_rule del linear
           (fun r => match r with
                     | Returns (inl st') =>
                         depth st' = 0 ->
                         dims st' = [Z.of_nat (length (elems st'))]
                     | _ => True
                     end)); clear l st.
  - intros st [D Ds]. pose proof (elementTurn_cases del st) as T.
    destruct (elementTurn del st) as [s1|s1|s1| |e|p]; try exact I.
    + destruct T as [E [(_ & _ & _ & U)|(_ & _ & _ & D1 & Ds1)]].
      * apply updateIndex_Returns in U as [Hb _]. rewrite Ds in Hb.
        cbn [length] in Hb. lia.
      * split; [congruence|]. now rewrite Ds1, E.
    + destruct T as (D1 & Ds1 & text & e & _ & _ & _ & E).
      left. repeat split; [congruence| |].
      * rewrite E. now destruct (elems st).
      * rewrite Ds1, Ds, E, length_app. cbn [length]. f_equal. lia.
    + contradiction.
    + right. right. auto.
  - intros st L. pose proof (delimTurn_cases del st) as T.
    destruct (delimTurn del st) as [s1|s1|s1| |e|p]; try exact I.
    + destruct T as (R & _ & D1 & E & U).
      apply updateIndex_Returns in U as [Hb U].
      destruct L as [(D & _ & Ds)|[(D & _)|(_ & R0 & _)]];
        [|lia|congruence].
      right. left. split; [lia|].
      rewrite U, Ds, D, E. cbn. f_equal. lia.
    + contradiction.
    + destruct T as (Rn & _ & _ & D1 & E & U).
      apply updateIndex_Returns in U as [Hb U].
      destruct L as [(D & _ & Ds)|[(D & _)|(_ & R0 & _)]];
        [|lia|contradiction].
      split; [congruence|]. rewrite U, Ds, D, E. cbn. f_equal. lia.
    + intros Z0. destruct L as [(D & _)|[(_ & Ds)|(D & _)]];
        [lia|exact Ds|lia].
Qed.

(** A single dimension is the count of the elements. *)
Lemma parseArray_single_dimension (src del : list byte) (d : Z)
  (es : list slice) :
  parseArray src del = Returns ([d], es, None) ->
  d = Z.of_nat (length es).
Proof.
  intros H. pose proof (parseArray_cases src del) as C. rewrite H in C.
  destruct C as (HN & [(K & _)|(L & _ & _)]); [discriminate|].
  cbn [length] in L. revert H. unfold parseArray.
  destruct (parseStructure_cases src del HN) as [[_ ->]|[Hp ->]].
  - cbn [bind]. unfold closeAndCheck. cbn [rest depth i dims elems].
    destruct (closeLoop _ _ _) as [[d' n']|e]; [|discriminate].
    destruct (0 <? d'); cbn [bind checkDims]; discriminate.
  - rewrite <- L in *.
    pose proof (linear_loops del Element
                  (mkPstate (Z.of_nat 1) 1 (skipn 1 src) (repeat 0 1) []))
      as Q.
    pose proof (parsing_loops src 1 del Element _ Hp) as P.
    destruct (loops del Element _) as [[st|e]|p]; cbn [bind];
      try discriminate.
    destruct P as [Hst R].
    destruct (closeAndCheck_parsed src _ st Hst R) as [-> _].
    destruct (0 <? depth st) eqn:E; [discriminate|].
    destruct (existsb _ (dims st)); [discriminate|].
    intros [= Hd He]. apply Z.ltb_ge in E.
    destruct Hst as (_ & _ & (C1 & _) & _).
    assert (Z0 : depth st = 0) by lia.
    specialize (Q (conj eq_refl eq_refl) Z0). rewrite Hd, He in Q.
    now injection Q.
Qed.

(** X5. When [parseArray] returns a single dimension without error,
    that dimension is the number of elements it returns. *)
Theorem parseArray_linear_count (src del : list byte) (d : Z)
  (es : list slice) :
  parseArray src del = Returns ([d], es, None) ->
  d = Z.of_nat (length es).
Proof. apply parseArray_single_dimension. Qed.

Lemma parseArray_linear_count_witness :
  3 = Z.of_nat (length [Some (bs "a"); None; Some (bs "c d")]).
Proof.
  apply (parseArray_linear_count (bs "{a,NULL,c d}") (bs ",")).
  vm_compute; reflexivity.
Defined.

(** X6. When [ScanLinearArray] returns without error, [parseArray] has
    returned, for an empty list of elements, no dimension and, for any
    other, the one dimension that is the number of the elements; and
    [ScanLinearArray] returns elements and an error never both. *)
Theorem ScanLinearArray_elements (src del : list byte) (typ : string)
  (es : list slice) (err : option error) :
  ScanLinearArray src del typ = Returns (es, err) ->
  match err with
  | Some _ => es = []
  | None =>
      parseArray src del =
      Returns (match es with
               | [] => []
               | _ :: _ => [Z.of_nat (length es)]
               end, es, None)
  end.
Proof.
  unfold ScanLinearArray.
  destruct (parseArray src del) as [[[ds es'] [e|]]|p] eqn:H; cbn [bind];
    [now intros [= <- <-]| |discriminate].
  destruct (1 <? length ds)%nat eqn:L; [now intros [= <- <-]|].
  intros [= <- <-]. apply Nat.ltb_ge in L.
  destruct (parseArray_dims_elems src del ds es' H) as [Hiff Hne].
  destruct ds as [|d ds].
  - rewrite (proj2 Hiff eq_refl). reflexivity.
  - destruct ds as [|d' ds]; [|cbn [length] in L; lia].
    rewrite (parseArray_single_dimension src del d es' H).
    destruct es' as [|x es']; [|reflexivity].
    discriminate (proj1 Hiff eq_refl).
Qed.

Lemma ScanLinearArray_elements_witness :
  parseArray (bs "{a,NULL}") (bs ",") =
  Returns ([Z.of_nat (length [Some (bs "a"); @None (list byte)])],
           [Some (bs "a"); None], None).
Proof.
  apply (ScanLinearArray_elements (bs "{a,NULL}") (bs ",") "text"%string
           [Some (bs "a"); None] None).
  vm_compute; reflexivity.
Defined.

(** ** The encoder *)

Lemma escaped_length (v : list byte) :
  length (escaped v) = (length v + escapedCount v)%nat.
Proof.
  unfold escaped, escapedCount.
  induction v as [|c v IH]; [reflexivity|].
  cbn [flat_map filter]. unfold escapeByte at 1.
  destruct (existsb (Byte.eqb c) [dquote; backslash]);
    cbn [app length]; rewrite IH; lia.
Qed.

(** X7. [AppendArrayQuotedBytes] keeps the buffer and appends a quote,
    the bytes of the value in their order, each quote and each backslash
    among them after a backslash of its own and every other byte as it
    is, and a quote. So it appends two bytes more than the value has, and
    one more for every quote or backslash in it, and what it appends does
    not depend on the buffer. *)
Theorem AppendArrayQuotedBytes_bytewise (b v : list byte) :
  AppendArrayQuotedBytes b v = b ++ dquote :: flat_map escapeByte v ++ [dquote]
  /\ length (AppendArrayQuotedBytes b v)
     = (length b + length v + escapedCount v + 2)%nat
  /\ AppendArrayQuotedBytes b v = b ++ AppendArrayQuotedBytes [] v.
Proof.
  rewrite !AppendArrayQuotedBytes_escaped. repeat split.
  rewrite length_app. cbn [length]. rewrite length_app, escaped_length.
  cbn [length]. lia.
Qed.

Lemma escaped_injective (v w : list byte) : escaped v = escaped w -> v = w.
Proof.
  intros H.
  pose proof (scanQuoted_escaped v [] 0 []) as Hv.
  pose proof (scanQuoted_escaped w [] 0 []) as Hw.
  rewrite H in Hv. rewrite Hv in Hw. now injection Hw.
Qed.

(** X8. [AppendArrayQuotedBytes] appends different bytes for different
    values: two calls on the same buffer with the same result are calls
    with the same value. *)
Theorem AppendArrayQuotedBytes_injective (b v w : list byte) :
  AppendArrayQuotedBytes b v = AppendArrayQuotedBytes b w -> v = w.
Proof.
  rewrite !AppendArrayQuotedBytes_escaped. intros H.
  apply app_inv_head in H. injection H as H. apply app_inv_tail in H.
  now apply escaped_injective.
Qed.

Lemma AppendArrayQuotedBytes_injective_witness :
  bs "a\b" = bs "a\b".
Proof.
  apply (AppendArrayQuotedBytes_injective (bs "x") (bs "a\b") (bs "a\b")).
  reflexivity.
Defined.

(** ** Arrays of quoted values *)

Lemma appendQuotedElements_render (b v : list byte) (vs : list (list byte)) :
  appendQuotedElements b (v :: vs)
  = b ++ renderForest comma (quotedForest v vs).
Proof.
  revert b v; induction vs as [|w ws IH]; intros b v.
  - cbn [appendQuotedElements quotedForest renderForest render itemText].
    apply AppendArrayQuotedBytes_escaped.
  - change (appendQuotedElements b (v :: w :: ws))
      with (appendQuotedElements (AppendArrayQuotedBytes b v ++ [comma])
              (w :: ws)).
    rewrite IH, AppendArrayQuotedBytes_escaped.
    cbn [quotedForest renderForest render itemText].
    rewrite <- !app_assoc. reflexivity.
Qed.

Lemma quotedForest_shape (v : list byte) (vs : list (list byte)) :
  allShape comma [] (quotedForest v vs) = true
  /\ forestLength (quotedForest v vs) = Z.of_nat (length (v :: vs))
  /\ flattenForest (quotedForest v vs) = map Some (v :: vs).
Proof.
  revert v; induction vs as [|w ws IH]; intros v.
  - repeat split.
  - destruct (IH w) as (H1 & H2 & H3).
    cbn [quotedForest allShape hasShape itemOk forestLength flattenForest
           flatten itemElem andb].
    rewrite H1, H2, H3. repeat split. cbn [length]. lia.
Qed.

(** X9. An array literal written with [AppendArrayQuotedBytes], a comma
    between two elements, reads back: for any values, whatever their
    bytes, [parseArray] and [ScanLinearArray] with the delimiter comma
    return exactly these values, none of them NULL, and [parseArray]
    returns their number as the one dimension, or no dimension when there
    is no value. *)
Theorem quotedArray_roundtrip (vs : list (list byte)) (typ : string) :
  parseArray (quotedArray vs) [comma] =
  Returns (match vs with
           | [] => []
           | _ :: _ => [Z.of_nat (length vs)]
           end, map Some vs, None)
  /\ ScanLinearArray (quotedArray vs) [comma] typ
     = Returns (map Some vs, None).
Proof.
  assert (P : parseArray (quotedArray vs) [comma] =
              Returns (match vs with
                       | [] => []
                       | _ :: _ => [Z.of_nat (length vs)]
                       end, map Some vs, None)).
  { destruct vs as [|v vs]; [vm_compute; reflexivity|].
    unfold quotedArray. rewrite appendQuotedElements_render.
    destruct (quotedForest_shape v vs) as (H1 & H2 & H3).
    change ([lbrace] ++ renderForest comma (quotedForest v vs))
      with (lbrace :: renderForest comma (quotedForest v vs)).
    change ((lbrace :: renderForest comma (quotedForest v vs)) ++ [rbrace])
      with (render comma (Node (quotedForest v vs))).
    rewrite (parseArray_render comma) with (ds := [Z.of_nat (length (v :: vs))]);
      try discriminate.
    - cbn [flatten]. now rewrite H3.
    - cbn [hasShape]. now rewrite H1, H2, Z.eqb_refl. }
  split; [exact P|].
  unfold ScanLinearArray. rewrite P. cbn [bind].
  now destruct vs.
Qed.

(** ** The turns of [SplitBytes] *)

(** A turn that reads inside the input moves the reader forward, by one
    byte or by the two quotes of a doubled quote, and not past the end. *)
Lemma splitTurn_advances (st st' : sstate) :
  0 <= pos (rd st) -> inside st ->
  splitTurn st = Returns (inl st') ->
  s (rd st') = s (rd st) /\
  pos (rd st) < pos (rd st') <= Z.of_nat (length (s (rd st))).
Proof.
  intros Hpos Hin.
  assert (Hlt : pos (rd st) < Z.of_nat (length (s (rd st))))
    by (destruct Hin as [?|[? _]]; lia).
  rewrite (splitTurn_inside _ Hlt).
  set (b := nth (Z.to_nat (pos (rd st))) (s (rd st)) x00) in *.
  unfold splitSwitch.
  destruct (Byte.eqb b rparen).
  { destruct (negb (quoted st)); cbn [bind]; intros [= <-];
      cbn [rd s pos]; split; auto; lia. }
  destruct (Byte.eqb b dquote) eqn:Hq.
  { apply Byte.byte_dec_bl in Hq.
    assert (Hlt2 : pos (rd st) + 1 < Z.of_nat (length (s (rd st))))
      by (destruct Hin as [?|[_ ?]]; [assumption|contradiction]).
    rewrite Peek_spec by (cbn [pos]; lia). cbn [s pos].
    destruct (Z.of_nat (length (s (rd st))) <=? pos (rd st) + 1) eqn:E1;
      [apply Z.leb_le in E1; lia|].
    cbn [bind].
    destruct (Byte.eqb (nth (Z.to_nat (pos (rd st) + 1)) (s (rd st)) x00)
                dquote).
    - unfold Next, ReadByte. cbn [s pos]. rewrite E1. cbn [bind].
      intros [= <-]. cbn [rd s pos]. split; auto; lia.
    - destruct (negb (Byte.eqb (prev st) backslash)); cbn [bind];
        intros [= <-]; cbn [rd s pos]; split; auto; lia. }
  destruct (Byte.eqb b comma).
  { destruct (negb (quoted st)); cbn [bind]; intros [= <-];
      cbn [rd s pos]; split; auto; lia. }
  cbn [bind]. intros [= <-]. cbn [rd s pos]. split; auto; lia.
Qed.

(** ** The turns [SplitBytes] takes *)

Lemma splitLoop_within (fuel k : nat) (st : sstate)
  (r : outcome (list slice * option error)) :
  0 <= pos (rd st) ->
  splitLoop fuel st = Some r ->
  (Z.to_nat (Z.of_nat (length (s (rd st))) - pos (rd st)) < k)%nat ->
  splitLoop k st = Some r.
Proof.
  revert k st; induction fuel as [|fuel IH]; intros k st Hpos H Hk;
    [discriminate|].
  destruct k as [|k]; [lia|]. cbn [splitLoop] in *.
  destruct (sdepth st =? 0) eqn:E; [exact H|].
  destruct (inside_dec st) as [Hin|Hout].
  - destruct (splitTurn_returns st Hpos) as (st' & Ht & _ & Hp & _).
    rewrite Ht in *.
    destruct (splitTurn_advances st st' Hpos Hin Ht) as [Hs Hadv].
    apply IH; [exact Hp|exact H|]. rewrite Hs. lia.
  - exfalso. apply Z.eqb_neq in E.
    pose proof (splitLoop_stuck (S fuel) st Hpos Hout E) as K.
    cbn [splitLoop] in K. destruct (sdepth st =? 0); [discriminate|].
    congruence.
Qed.

(** X10. A call of [SplitBytes] that returns has taken fewer turns of
    its loop than the input has bytes. So the call on [src] returns
    exactly when it has returned within [len(src)] turns, and what it
    returns is what it has returned by then. *)
Theorem SplitBytes_turns_bounded (src : list byte) :
  (forall (fuel : nat) (r : outcome (list slice * option error)),
      SplitBytes fuel src = Some r ->
      SplitBytes (length src) src = Some r) /\
  (SplitBytes (length src) src = None ->
   forall fuel : nat, SplitBytes fuel src = None).
Proof.
  assert (A : forall (fuel : nat) (r : outcome (list slice * option error)),
             SplitBytes fuel src = Some r ->
             SplitBytes (length src) src = Some r).
  { intros fuel r. unfold SplitBytes. destruct src as [|c body]; [auto|].
    destruct (negb (Byte.eqb c lparen)); [auto|].
    intros H. apply (splitLoop_within fuel); [cbn; lia|exact H|].
    cbn [splitInit rd s pos length]. lia. }
  split; [exact A|].
  intros H fuel. destruct (SplitBytes fuel src) as [r|] eqn:E;
    [|reflexivity].
  apply A in E. congruence.
Qed.

Lemma SplitBytes_turns_bounded_witness :
  SplitBytes (length (bs "(a,b)c")) (bs "(a,b)c") =
  Some (Returns ([Some (bs "a"); Some (bs "b")], None))
  /\ forall fuel : nat, SplitBytes fuel (bs "(a,b") = None.
Proof.
  split.
  - apply (proj1 (SplitBytes_turns_bounded (bs "(a,b)c")) 100%nat).
    vm_compute; reflexivity.
  - apply (proj2 (SplitBytes_turns_bounded (bs "(a,b"))).
    vm_compute; reflexivity.
Defined.

(** ** The fields [SplitBytes] returns *)

Lemma splitSwitch_elem (st st' : sstate) (b : byte) (r1 : reader) :
  0 < pos r1 ->
  splitSwitch st b r1 = Returns st' ->
  (chunks st' = chunks st /\ sdepth st' = sdepth st /\
   (elem st' = elem st \/ elem st' <> None))
  \/ (chunks st' = chunks st ++ [elem st] /\
      ((sdepth st' = sdepth st /\ elem st' = Some [])
       \/ sdepth st' = sdepth st - 1)).
Proof.
  intros Hpos. unfold splitSwitch.
  destruct (Byte.eqb b rparen).
  { destruct (negb (quoted st)); intros [= <-]; cbn [chunks sdepth elem];
      [right; auto|left; repeat split; right; discriminate]. }
  destruct (Byte.eqb b dquote).
  { rewrite (Peek_spec _ Hpos).
    destruct (Z.of_nat (length (s r1)) <=? pos r1); cbn [bind].
    - replace (Byte.eqb x00 dquote) with false by reflexivity.
      destruct (negb (Byte.eqb (prev st) backslash));
        intros [= <-]; left; cbn [chunks sdepth elem]; repeat split;
        [now left|right; discriminate].
    - destruct (Byte.eqb (nth (Z.to_nat (pos r1)) (s r1) x00) dquote).
      + destruct (Next _) as [? r3]. intros [= <-]; left.
        cbn [chunks sdepth elem]. repeat split. right; discriminate.
      + destruct (negb (Byte.eqb (prev st) backslash));
          intros [= <-]; left; cbn [chunks sdepth elem]; repeat split;
          [now left|right; discriminate]. }
  destruct (Byte.eqb b comma).
  { destruct (negb (quoted st)); intros [= <-]; cbn [chunks sdepth elem];
      [right; auto|left; repeat split; right; discriminate]. }
  intros [= <-]; left. cbn [chunks sdepth elem]. repeat split.
  right; discriminate.
Qed.

Lemma fieldsOk_turn (st st' : sstate) :
  0 <= pos (rd st) -> sdepth st <> 0 -> fieldsOk st ->
  splitTurn st = Returns (inl st') -> fieldsOk st'.
Proof.
  intros Hpos Hne [Hd Hc] Ht.
  assert (D1 : sdepth st = 1) by (destruct Hd; [assumption|contradiction]).
  assert (E : (chunks st' = chunks st /\ sdepth st' = sdepth st /\
               (elem st' = elem st \/ elem st' <> None))
              \/ (chunks st' = chunks st ++ [elem st] /\
                  ((sdepth st' = sdepth st /\ elem st' = Some [])
                   \/ sdepth st' = sdepth st - 1))).
  { destruct (Z_lt_dec (pos (rd st)) (Z.of_nat (length (s (rd st)))))
      as [Hlt|Hge].
    - rewrite (splitTurn_inside _ Hlt) in Ht.
      destruct (splitSwitch st _ _) as [st1|p] eqn:Es; [|discriminate].
      cbn [bind] in Ht. injection Ht as <-.
      apply splitSwitch_elem in Es; [exact Es|cbn [pos]; lia].
    - rewrite splitTurn_at_end in Ht by lia. injection Ht as <-.
      left. cbn [chunks sdepth elem]. repeat split. right. discriminate. }
  unfold fieldsOk.
  destruct E as [(C & D & El)|(C & F)]; rewrite C.
  - split; [rewrite D; now left|].
    destruct (chunks st) as [|c tl]; [congruence|].
    destruct Hc as [Hf He]. split; [exact Hf|]. intros _.
    destruct El as [->|El]; auto.
  - assert (T : match chunks st ++ [elem st] with
                | [] => False
                | _ :: tl => Forall (fun c : slice => c <> None) tl
                end).
    { destruct (chunks st) as [|c tl]; cbn [app]; [constructor|].
      destruct Hc as [Hf He]. apply Forall_app. split; [exact Hf|].
      constructor; [auto|constructor]. }
    destruct F as [[D El]|D].
    + split; [rewrite D; now left|].
      destruct (chunks st ++ [elem st]); [contradiction|].
      split; [exact T|]. intros _. rewrite El. discriminate.
    + split; [right; lia|].
      destruct (chunks st ++ [elem st]); [contradiction|].
      split; [exact T|]. intros K. lia.
Qed.

Lemma fieldsOk_loop (fuel : nat) (st : sstate) (cs : list slice) :
  0 <= pos (rd st) -> fieldsOk st ->
  splitLoop fuel st = Some (Returns (cs, None)) ->
  exists (c0 : slice) (tl : list slice),
    cs = c0 :: tl /\ Forall (fun c : slice => c <> None) tl.
Proof.
  revert st; induction fuel as [|fuel IH]; intros st Hpos Hok H;
    [discriminate|].
  cbn [splitLoop] in H. destruct (sdepth st =? 0) eqn:E.
  - injection H as <-. apply Z.eqb_eq in E. destruct Hok as [_ Hc].
    destruct (chunks st) as [|c tl]; [lia|].
    exists c, tl. split; [reflexivity|apply Hc].
  - apply Z.eqb_neq in E.
    destruct (splitTurn_returns st Hpos) as (st' & Ht & _ & Hp & _).
    rewrite Ht in H.
    apply (IH st' Hp); [|exact H].
    now apply (fieldsOk_turn st st').
Qed.

(** X11. A call of [SplitBytes] that returns fields returns at least
    one, and none of them but the first can be nil: a field after a comma
    is never nil. *)
Theorem SplitBytes_fields_not_nil (fuel : nat) (src : list byte)
  (cs : list slice) :
  SplitBytes fuel src = Some (Returns (cs, None)) ->
  exists (c0 : slice) (tl : list slice),
    cs = c0 :: tl /\ Forall (fun c : slice => c <> None) tl.
Proof.
  unfold SplitBytes. destruct src as [|c body]; [discriminate|].
  destruct (negb (Byte.eqb c lparen)); [discriminate|].
  apply fieldsOk_loop; [cbn; lia|].
  split; [now left|reflexivity].
Qed.

Lemma SplitBytes_fields_not_nil_witness :
  exists (c0 : slice) (tl : list slice),
    [None; Some []; Some (bs "c")] = c0 :: tl
    /\ Forall (fun c : slice => c <> None) tl.
Proof.
  apply (SplitBytes_fields_not_nil 10 (bs "(,,c)")).
  vm_compute; reflexivity.
Defined.

(** ** Rows of bare and quoted fields *)

Lemma skipn_cons (A : Type) (p : nat) (l : list A) (c d : A) (r : list A) :
  skipn p l = c :: r ->
  skipn (S p) l = r /\ nth p l d = c /\ (p < length l)%nat.
Proof.
  revert l; induction p as [|p IH]; intros l H.
  - cbn [skipn] in H. subst l. cbn. repeat split. lia.
  - destruct l as [|x l]; [discriminate|]. cbn [skipn] in H.
    destruct (IH l H) as (H1 & H2 & H3). cbn [nth length].
    repeat split; [exact H1|exact H2|lia].
Qed.

Lemma skipn_app_tail (p : nat) (body f r : list byte) :
  skipn p body = f ++ r -> skipn (p + length f) body = r.
Proof.
  intros H. rewrite Nat.add_comm, <- skipn_skipn, H.
  now rewrite skipn_app, skipn_all, Nat.sub_diag.
Qed.

Lemma appendAll_Some (l f : list byte) :
  appendAll (Some l) f = Some (l ++ f).
Proof.
  revert l; induction f as [|c f IH]; intros l; cbn [appendAll fold_left].
  - now rewrite app_nil_r.
  - unfold append at 2. cbn [contents]. unfold appendAll in IH.
    rewrite IH, <- app_assoc. reflexivity.
Qed.

Lemma appendAll_None (f : list byte) :
  appendAll None f = match f with [] => None | _ :: _ => Some f end.
Proof.
  destruct f as [|c f]; [reflexivity|].
  cbn [appendAll fold_left]. unfold append at 2. cbn [contents app].
  apply (appendAll_Some [c] f).
Qed.

(** The turn of [SplitBytes] on a plain byte appends it to the field. *)
Lemma splitTurn_plain (body : list byte) (p : nat) (cs : list slice)
  (e : slice) (pv : byte) (q : bool) (c : byte) (r : list byte) :
  skipn p body = c :: r -> plainByte c = true ->
  splitTurn (mkSstate (mkReader body (Z.of_nat p)) cs e pv 1 q) =
  Returns (inl (mkSstate (mkReader body (Z.of_nat (S p))) cs (append e c) c
                  1 q)).
Proof.
  intros Hs Hc. destruct (skipn_cons byte p body c x00 r Hs) as (_ & Hn & Hl).
  unfold plainByte in Hc. apply andb_prop in Hc as [Hc H3].
  apply andb_prop in Hc as [H1 H2]. apply negb_true_iff in H1, H2, H3.
  rewrite splitTurn_inside by (cbn [rd s pos]; lia).
  cbn [rd s pos]. rewrite Nat2Z.id, Hn. unfold splitSwitch.
  rewrite H1, H2, H3. cbn [bind chunks elem sdepth quoted].
  do 4 f_equal. lia.
Qed.

(** The turns on a run of plain bytes. *)
Lemma splitLoop_plain (f : list byte) :
  forall (body : list byte) (p : nat) (cs : list slice) (e : slice)
         (pv : byte) (r : list byte),
    forallb plainByte f = true ->
    skipn p body = f ++ r ->
    exists pv' : byte,
    forall fuel : nat,
      splitLoop (length f + fuel)
        (mkSstate (mkReader body (Z.of_nat p)) cs e pv 1 false) =
      splitLoop fuel
        (mkSstate (mkReader body (Z.of_nat (p + length f))) cs
           (appendAll e f) pv' 1 false).
Proof.
  induction f as [|c f IH]; intros body p cs e pv r Hf Hs.
  - exists pv. intros fuel. cbn [length Nat.add appendAll fold_left].
    now rewrite Nat.add_0_r.
  - cbn [forallb] in Hf. apply andb_prop in Hf as [Hc Hf].
    cbn [app] in Hs.
    destruct (skipn_cons byte p body c x00 (f ++ r) Hs) as (Hs' & _ & _).
    destruct (IH body (S p) cs (append e c) c r Hf Hs') as [pv' K].
    exists pv'. intros fuel. cbn [length Nat.add splitLoop sdepth].
    change (1 =? 0) with false. cbv iota.
    rewrite (splitTurn_plain body p cs e pv false c (f ++ r) Hs Hc).
    rewrite K. cbn [appendAll fold_left].
    now replace (p + S (length f))%nat with (S p + length f)%nat by lia.
Qed.

Lemma last_cons (w : list byte) (c d : byte) :
  last (c :: w) d = last w c.
Proof.
  revert c d; induction w as [|x w IH]; intros c d; [reflexivity|].
  change (last (c :: x :: w) d) with (last (x :: w) d).
  now rewrite !IH.
Qed.

(** The turn of [SplitBytes] on a byte inside quotes that is no quote
    appends it to the field. *)
Lemma splitTurn_inquote (body : list byte) (p : nat) (cs : list slice)
  (e : slice) (pv : byte) (c : byte) (r : list byte) :
  skipn p body = c :: r -> Byte.eqb c dquote = false ->
  splitTurn (mkSstate (mkReader body (Z.of_nat p)) cs e pv 1 true) =
  Returns (inl (mkSstate (mkReader body (Z.of_nat (S p))) cs (append e c) c
                  1 true)).
Proof.
  intros Hs Hc. destruct (skipn_cons byte p body c x00 r Hs) as (_ & Hn & Hl).
  rewrite splitTurn_inside by (cbn [rd s pos]; lia).
  cbn [rd s pos]. rewrite Nat2Z.id, Hn. unfold splitSwitch. rewrite Hc.
  cbn [quoted negb chunks elem sdepth].
  replace (Z.of_nat p + 1) with (Z.of_nat (S p)) by lia.
  destruct (Byte.eqb c rparen); [reflexivity|].
  destruct (Byte.eqb c comma); reflexivity.
Qed.

(** The turns on the bytes between the quotes of a field. *)
Lemma splitLoop_inquote (w : list byte) :
  forall (body : list byte) (p : nat) (cs : list slice) (e : slice)
         (pv : byte) (r : list byte) (fuel : nat),
    forallb (fun c => negb (Byte.eqb c dquote)) w = true ->
    skipn p body = w ++ r ->
    splitLoop (length w + fuel)
      (mkSstate (mkReader body (Z.of_nat p)) cs e pv 1 true) =
    splitLoop fuel
      (mkSstate (mkReader body (Z.of_nat (p + length w))) cs
         (appendAll e w) (last w pv) 1 true).
Proof.
  induction w as [|c w IH]; intros body p cs e pv r fuel Hw Hs.
  - cbn [length Nat.add appendAll fold_left last].
    now rewrite Nat.add_0_r.
  - cbn [forallb] in Hw. apply andb_prop in Hw as [Hc Hw].
    apply negb_true_iff in Hc. cbn [app] in Hs.
    destruct (skipn_cons byte p body c x00 (w ++ r) Hs) as (Hs' & _ & _).
    cbn [length Nat.add splitLoop sdepth].
    change (1 =? 0) with false. cbv iota.
    rewrite (splitTurn_inquote body p cs e pv c (w ++ r) Hs Hc).
    rewrite (IH body (S p) cs (append e c) c r fuel Hw Hs').
    rewrite last_cons. cbn [appendAll fold_left].
    now replace (p + S (length w))%nat with (S p + length w)%nat by lia.
Qed.

(** The turn on a quote that opens or closes the quotes of a field. *)
Lemma splitTurn_toggle (body : list byte) (p : nat) (cs : list slice)
  (e : slice) (pv : byte) (q : bool) (c : byte) (r : list byte) :
  skipn p body = dquote :: c :: r ->
  Byte.eqb c dquote = false -> Byte.eqb pv backslash = false ->
  splitTurn (mkSstate (mkReader body (Z.of_nat p)) cs e pv 1 q) =
  Returns (inl (mkSstate (mkReader body (Z.of_nat (S p))) cs e dquote 1
                  (negb q))).
Proof.
  intros Hs Hc Hpv.
  destruct (skipn_cons byte p body dquote x00 (c :: r) Hs) as (Hs' & Hn & Hl).
  destruct (skipn_cons byte (S p) body c x00 r Hs') as (_ & Hn' & Hl').
  rewrite splitTurn_quote;
    [|cbn [rd s pos]; lia|cbn [rd s pos]; lia
     |unfold byteAt; cbn [rd s pos]; now rewrite Z.add_0_r, Nat2Z.id].
  unfold byteAt, after. cbn [rd s pos prev chunks elem quoted sdepth].
  replace (Z.to_nat (Z.of_nat p + 1)) with (S p) by lia.
  rewrite Hn', Hc, Hpv.
  now replace (Z.of_nat p + 1) with (Z.of_nat (S p)) by lia.
Qed.

(** The turns on a field as it is written, up to the comma or the
    parenthesis after it. *)
Lemma splitLoop_field (d : field) (body : list byte) (p : nat)
  (cs : list slice) (e : slice) (pv c2 : byte) (r : list byte) :
  fieldOk d = true ->
  Byte.eqb pv backslash = false -> Byte.eqb c2 dquote = false ->
  skipn p body = fieldText d ++ c2 :: r ->
  exists pv' : byte,
  forall fuel : nat,
    splitLoop (length (fieldText d) + fuel)
      (mkSstate (mkReader body (Z.of_nat p)) cs e pv 1 false) =
    splitLoop fuel
      (mkSstate (mkReader body (Z.of_nat (p + length (fieldText d)))) cs
         (appendAll e (fieldBytes d)) pv' 1 false).
Proof.
  intros Hok Hpv Hc2 Hs. destruct d as [f|w]; cbn [fieldText fieldBytes] in *.
  - exact (splitLoop_plain f body p cs e pv (c2 :: r) Hok Hs).
  - cbn [fieldOk] in Hok. apply andb_prop in Hok as [Hok Hlast].
    apply andb_prop in Hok as [Hne Hw]. apply negb_true_iff in Hlast.
    destruct w as [|c w]; [discriminate|]. clear Hne.
    exists dquote. intros fuel.
    assert (Hc : Byte.eqb c dquote = false).
    { cbn [forallb] in Hw. apply andb_prop in Hw as [Hc _].
      now apply negb_true_iff in Hc. }
    cbn [app] in Hs. rewrite <- app_assoc in Hs. cbn [app] in Hs.
    destruct (skipn_cons byte p body dquote x00 _ Hs) as (Hs1 & _ & _).
    cbn [length Nat.add splitLoop sdepth].
    change (1 =? 0) with false. cbv iota.
    rewrite (splitTurn_toggle body p cs e pv false c _ Hs Hc Hpv).
    cbn [negb]. rewrite length_app. cbn [length].
    replace (S (length w) + 1 + fuel)%nat
      with (length (c :: w) + S fuel)%nat by (cbn [length]; lia).
    change (c :: w ++ dquote :: c2 :: r)
      with ((c :: w) ++ dquote :: c2 :: r) in Hs1.
    rewrite (splitLoop_inquote (c :: w) body (S p) cs e dquote
               (dquote :: c2 :: r) (S fuel) Hw Hs1).
    apply skipn_app_tail in Hs1.
    cbn [splitLoop sdepth]. change (1 =? 0) with false. cbv iota.
    rewrite (splitTurn_toggle body _ cs _ _ true c2 r Hs1 Hc2);
      [|now rewrite last_cons, <- (last_cons w c x00)].
    cbn [negb]. do 3 f_equal. cbn [length]. do 2 f_equal. lia.
Qed.

(** The turns on the fields of a row up to its closing parenthesis. *)
Lemma splitLoop_fields (t : list byte) (ds : list field) :
  forall (d : field) (body : list byte) (p : nat) (cs : list slice)
         (e : slice) (pv : byte) (fuel : nat),
    fieldOk d = true ->
    forallb fieldOk ds = true ->
    Byte.eqb pv backslash = false ->
    skipn p body =
    fieldText d ++ flat_map (fun g => comma :: fieldText g) ds
      ++ rparen :: t ->
    (length (fieldText d ++ flat_map (fun g => comma :: fieldText g) ds) + 2
     <= fuel)%nat ->
    splitLoop fuel (mkSstate (mkReader body (Z.of_nat p)) cs e pv 1 false) =
    Some (Returns (cs ++ appendAll e (fieldBytes d)
                      :: map (fun g => Some (fieldBytes g)) ds, None)).
Proof.
  induction ds as [|g gs IH];
    intros d body p cs e pv fuel Hd Hds Hpv Hs Hfuel.
  - cbn [flat_map app] in *. rewrite app_nil_r in Hfuel.
    destruct (splitLoop_field d body p cs e pv rparen t Hd Hpv eq_refl Hs)
      as [pv' K].
    replace fuel
      with (length (fieldText d) + (fuel - length (fieldText d)))%nat by lia.
    rewrite K. apply skipn_app_tail in Hs.
    destruct (skipn_cons byte _ body rparen x00 t Hs) as (_ & Hn & Hl).
    destruct (fuel - length (fieldText d))%nat as [|[|k]] eqn:Ek;
      [lia|lia|].
    cbn [splitLoop sdepth]. change (1 =? 0) with false. cbv iota.
    rewrite splitTurn_inside by (cbn [rd s pos]; lia).
    cbn [rd s pos]. rewrite Nat2Z.id, Hn. unfold splitSwitch.
    replace (Byte.eqb rparen rparen) with true by reflexivity.
    cbn [quoted negb bind sdepth chunks elem map].
    change (1 - 1 =? 0) with true. reflexivity.
  - cbn [flat_map forallb] in *. apply andb_prop in Hds as [Hg Hgs].
    rewrite <- !app_assoc in Hs. cbn [app] in Hs.
    destruct (splitLoop_field d body p cs e pv comma _ Hd Hpv eq_refl Hs)
      as [pv' K].
    rewrite !length_app in Hfuel. cbn [length] in Hfuel.
    replace fuel
      with (length (fieldText d) + (fuel - length (fieldText d)))%nat by lia.
    rewrite K. apply skipn_app_tail in Hs.
    destruct (skipn_cons byte _ body comma x00 _ Hs) as (Hs' & Hn & Hl).
    destruct (fuel - length (fieldText d))%nat as [|k] eqn:Ek; [lia|].
    cbn [splitLoop sdepth]. change (1 =? 0) with false. cbv iota.
    rewrite splitTurn_comma;
      [|cbn [rd s pos]; lia
       |unfold byteAt; cbn [rd s pos]; now rewrite Z.add_0_r, Nat2Z.id].
    cbn [quoted]. unfold after. cbn [rd s pos sdepth chunks elem].
    replace (Z.of_nat (p + length (fieldText d)) + 1)
      with (Z.of_nat (S (p + length (fieldText d)))) by lia.
    rewrite (IH g body (S (p + length (fieldText d)))
               (cs ++ [appendAll e (fieldBytes d)]) (Some [])
               comma k Hg Hgs eq_refl);
      [| exact Hs'
       | rewrite length_app; lia].
    rewrite <- app_assoc. cbn [app map].
    now rewrite (appendAll_Some [] (fieldBytes g)).
Qed.

(** X12. A row is split into its fields: when every bare field holds no
    closing parenthesis, quote or comma, and every field between quotes
    is not empty, holds no quote and does not end with a backslash,
    [SplitBytes] on the first field, a comma before every other field,
    between parentheses and followed by any bytes, returns the fields in
    their order, each with its bytes and without its quotes, within the
    turns the literal has bytes. Commas and parentheses between quotes
    are bytes of the field. An empty first field is returned as nil, an
    empty field after a comma as the empty slice. *)
Theorem SplitBytes_row (d : field) (ds : list field) (t : list byte)
  (fuel : nat) :
  fieldOk d = true ->
  forallb fieldOk ds = true ->
  (length (rowLiteral d ds) <= fuel)%nat ->
  SplitBytes fuel (rowLiteral d ds ++ t) =
  Some (Returns (match fieldBytes d with
                 | [] => None
                 | _ :: _ => Some (fieldBytes d)
                 end :: map (fun g => Some (fieldBytes g)) ds, None)).
Proof.
  intros Hd Hds Hfuel. unfold rowLiteral in *. cbn [app SplitBytes].
  replace (negb (Byte.eqb lparen lparen)) with false by reflexivity.
  unfold splitInit.
  cbn [length] in Hfuel. rewrite !length_app in Hfuel. cbn [length] in Hfuel.
  rewrite (splitLoop_fields t ds d _ 0 [] None x00 fuel Hd Hds eq_refl).
  - cbn [app]. now rewrite appendAll_None.
  - cbn [skipn]. rewrite <- !app_assoc. reflexivity.
  - rewrite length_app. lia.
Qed.

Lemma SplitBytes_row_witness :
  SplitBytes 30
    (rowLiteral (Bare []) [InQuotes (bs "a,(b)"); Bare []; Bare (bs "{1}")]
       ++ bs "tail") =
  Some (Returns ([None; Some (bs "a,(b)"); Some []; Some (bs "{1}")], None)).
Proof.
  apply (SplitBytes_row (Bare [])
           [InQuotes (bs "a,(b)"); Bare []; Bare (bs "{1}")] (bs "tail") 30);
    [reflexivity|reflexivity|cbn; lia].
Defined.

(** ** [Peek] at the end of the input *)

(** X13. [Peek] never returns an error. Where the reader has a byte to
    read, [Peek] returns it and leaves the reader where it is. At the end
    of the input it returns the byte 0, and moves the reader one byte
    back, so that the [Next] after it reads the last byte of the input
    again; at the end of an empty input it panics with the error of
    [Seek]. *)
Theorem Peek_end_of_input (r : reader) :
  0 <= pos r ->
  (pos r < Z.of_nat (length (s r)) ->
   Peek r = Returns ((nth (Z.to_nat (pos r)) (s r) x00, None),
                     mkReader (s r) (pos r))) /\
  (Z.of_nat (length (s r)) <= pos r -> 1 <= pos r ->
   Peek r = Returns ((x00, None), mkReader (s r) (pos r - 1))) /\
  (pos r = Z.of_nat (length (s r)) -> 1 <= pos r ->
   Next (mkReader (s r) (pos r - 1)) =
   ((last (s r) x00, None), mkReader (s r) (pos r))) /\
  (Z.of_nat (length (s r)) <= pos r -> pos r = 0 ->
   Peek r = Panics (PanicError NegativePosition)).
Proof.
  intros Hpos. repeat split.
  - intros H. unfold Peek, ReadByte, SeekCurrent.
    destruct (Z.of_nat (length (s r)) <=? pos r) eqn:E;
      [apply Z.leb_le in E; lia|].
    cbn [pos s]. destruct (pos r + 1 + -1 <? 0) eqn:F;
      [apply Z.ltb_lt in F; lia|].
    do 3 f_equal. lia.
  - intros H H1. rewrite Peek_spec by lia.
    destruct (Z.of_nat (length (s r)) <=? pos r) eqn:E;
      [reflexivity|apply Z.leb_gt in E; lia].
  - intros H H1. rewrite Next_inside by (cbn [s pos]; lia).
    cbn [s pos]. f_equal; [|f_equal; lia]. f_equal.
    replace (Z.to_nat (pos r - 1)) with (length (s r) - 1)%nat by lia.
    destruct (s r) as [|c l] eqn:Es; [cbn [length] in H; lia|].
    rewrite <- Es. symmetry. rewrite Es.
    destruct (@exists_last _ (c :: l)) as (l' & x & ->); [discriminate|].
    rewrite last_last, length_app, app_nth2 by (cbn [length]; lia).
    cbn [length]. now replace (length l' + 1 - 1 - length l')%nat with 0%nat
      by lia.
  - intros H H0. unfold Peek, ReadByte, SeekCurrent.
    destruct (Z.of_nat (length (s r)) <=? pos r) eqn:E;
      [|apply Z.leb_gt in E; lia].
    cbn [pos s]. rewrite H0. reflexivity.
Qed.

Lemma Peek_end_of_input_witness :
  Peek (mkReader (bs "ab") 2) = Returns ((x00, None), mkReader (bs "ab") 1)
  /\ Next (mkReader (bs "ab") (2 - 1)) =
     ((last (bs "ab") x00, None), mkReader (bs "ab") 2).
Proof.
  split.
  - apply (proj1 (proj2 (Peek_end_of_input (mkReader (bs "ab") 2)
                           ltac:(cbn; lia))));
      cbn; lia.
  - apply (proj1 (proj2 (proj2 (Peek_end_of_input (mkReader (bs "ab") 2)
                                  ltac:(cbn; lia)))));
      [reflexivity|cbn; lia].
Defined.

(** ** Arrays whose values differ in their dimensions *)

Section RaggedLiterals.

Variable dl : byte.
Hypothesis dl_rbrace : dl <> rbrace.

(** The loops on the values of an array that are rectangular each with
    dimensions of its own: the count of every level below is written anew
    for each value, and is that of the last one at the closing brace. *)
Lemma loops_shapesOf (f : forest) :
  forall (dss : list (list Z)) (pre : list Z) (k : Z) (suf : list Z)
         (n : nat) (post : list byte) (es : list slice),
    shapesOf dl dss f = true ->
    Forall (fun ds => length ds = length suf) dss ->
    loops [dl] Element
      (mkPstate (Z.of_nat (S (length pre))) n
         (renderForest dl f ++ rbrace :: post) (pre ++ k :: suf) es) =
    loops [dl] Delimiter
      (mkPstate (Z.of_nat (length pre))
         (n + length (renderForest dl f) + 1) post
         (pre ++ (k + forestLength f) :: last dss []) (es ++ flattenForest f)).
Proof.
  induction f as [t|t f IH]; intros dss pre k suf n post es Hs Hl.
  - destruct dss as [|ds [|ds' dss]]; try discriminate.
    cbn [shapesOf] in Hs. apply Forall_inv in Hl.
    cbn [renderForest flattenForest forestLength last].
    pose proof (proj1 (loops_tree_forest dl dl_rbrace) t ds (pre ++ [k]) suf
                  n (rbrace :: post) es Hs (eq_sym Hl)
                  (followsTree_rbrace dl t post)) as L.
    replace (Z.of_nat (length (pre ++ [k]))) with (Z.of_nat (S (length pre)))
      in L by (rewrite length_app; cbn [length]; lia).
    rewrite <- !app_assoc in L. cbn [app] in L. rewrite L.
    rewrite loops_Delimiter, (delimTurn_close dl dl_rbrace).
    f_equal. apply mkPstate_eq; try reflexivity; lia.
  - destruct dss as [|ds dss]; [discriminate|].
    cbn [shapesOf] in Hs. apply andb_prop in Hs as [Hst Hsf].
    pose proof (Forall_inv Hl) as Hds. apply Forall_inv_tail in Hl.
    assert (Hne : dss <> []) by (destruct f, dss; discriminate).
    cbn [renderForest flattenForest forestLength].
    rewrite <- app_assoc. cbn [app].
    pose proof (proj1 (loops_tree_forest dl dl_rbrace) t ds (pre ++ [k]) suf
                  n (dl :: renderForest dl f ++ rbrace :: post) es Hst
                  (eq_sym Hds) (followsTree_dl dl t _)) as L.
    replace (Z.of_nat (length (pre ++ [k]))) with (Z.of_nat (S (length pre)))
      in L by (rewrite length_app; cbn [length]; lia).
    rewrite <- !app_assoc in L. cbn [app] in L. rewrite L.
    rewrite loops_Delimiter, delimTurn_delimiter.
    rewrite (IH dss pre (k + 1) ds _ post _ Hsf)
      by (now rewrite Hds).
    replace (last (ds :: dss) []) with (last dss [])
      by (destruct dss; [contradiction|reflexivity]).
    f_equal. apply mkPstate_eq; try reflexivity.
    + rewrite length_app. cbn [length]. lia.
    + do 2 f_equal. lia.
    + now rewrite <- app_assoc.
Qed.

Lemma shapesOf_last (f : forest) :
  forall dss : list (list Z),
    shapesOf dl dss f = true -> Forall (fun d => 1 <= d) (last dss []).
Proof.
  induction f as [t|t f IH]; intros dss Hs.
  - destruct dss as [|ds [|ds' dss]]; try discriminate.
    cbn [shapesOf last] in *.
    exact (proj2 (proj1 (flatten_length dl) t ds Hs)).
  - destruct dss as [|ds dss]; [discriminate|].
    cbn [shapesOf] in Hs. apply andb_prop in Hs as [_ Hsf].
    assert (Hne : dss <> []) by (destruct f, dss; discriminate).
    replace (last (ds :: dss) []) with (last dss [])
      by (destruct dss; [contradiction|reflexivity]).
    auto.
Qed.

Lemma openLoop_shapesOf (f : forest) (dss : list (list Z)) (m : nat)
  (post : list byte) (d : Z) (n : nat) :
  shapesOf dl dss f = true ->
  Forall (fun ds => length ds = m) dss ->
  exists (d' : Z) (r' : list byte),
    openLoop (renderForest dl f ++ post) d n = (OpenBreak, (d', (n + m)%nat, r')).
Proof.
  intros Hs Hl. destruct f as [t|t f].
  - destruct dss as [|ds [|ds' dss]]; try discriminate.
    cbn [shapesOf renderForest] in *. apply Forall_inv in Hl. subst m.
    exact (proj1 (openLoop_tree_forest dl) t ds post d n Hs).
  - destruct dss as [|ds dss]; [discriminate|].
    cbn [shapesOf renderForest] in *. apply andb_prop in Hs as [Hs _].
    apply Forall_inv in Hl. subst m. rewrite <- app_assoc.
    exact (proj1 (openLoop_tree_forest dl) t ds _ d n Hs).
Qed.

Lemma parseArray_shapesOf (f : forest) (dss : list (list Z)) (m : nat) :
  shapesOf dl dss f = true ->
  Forall (fun ds => length ds = m) dss ->
  parseArray (render dl (Node f)) [dl] =
  Returns
    (forestLength f :: last dss [], flattenForest f,
     if forallb
          (fun d => Z.rem (Z.of_nat (length (flattenForest f))) d =? 0)
          (forestLength f :: last dss [])
     then None else Some DimensionMismatch).
Proof.
  intros Hs Hl.
  destruct (openLoop_shapesOf f dss m [rbrace] 1 1%nat Hs Hl)
    as (d' & r' & Ho).
  assert (Ho' : openLoop (render dl (Node f)) (Z.of_nat 0) 0 =
                (OpenBreak, (d', S m, r'))).
  { cbn [render openLoop].
    replace (Byte.eqb lbrace lbrace) with true by reflexivity. exact Ho. }
  unfold parseArray.
  replace (parseStructure (render dl (Node f)) [dl])
    with (loops [dl] Element (mkPstate d' (S m) r' (repeat 0 (S m)) []))
    by (cbn [render Z.of_nat] in *; now rewrite parseStructure_lbrace, Ho').
  rewrite <- (loops_after_open dl (render dl (Node f)) 0 (S m) [] d' (S m) r'
                Ho' (Nat.le_refl _)).
  cbn [render repeat Z.of_nat]. rewrite loops_Element.
  pose proof (elementTurn_open dl [] 0 (repeat 0 m) 0 (renderForest dl f ++ [rbrace]) [])
    as T.
  cbn [length app Z.of_nat] in T. rewrite T. clear T.
  pose proof (loops_shapesOf f dss [] 0 (repeat 0 m) 1 [] [] Hs) as L.
  rewrite repeat_length in L. specialize (L Hl).
  cbn [app length] in L.
  change (Z.pos (Pos.of_succ_nat 0)) with (Z.of_nat 1). rewrite L.
  rewrite loops_Delimiter. cbn [delimTurn rest bind].
  unfold closeAndCheck. cbn [rest depth i dims elems closeLoop length].
  change (0 <? Z.of_nat 0) with false. cbv iota.
  assert (Hpos : Forall (fun d => 1 <= d)
                   ((0 + forestLength f) :: last dss [])).
  { constructor; [pose proof (forestLength_pos f); lia|].
    now apply shapesOf_last with f. }
  rewrite (checkDims_positive _ _ _ Hpos). cbn [Z.add].
  replace (0 + forestLength f) with (forestLength f) by lia.
  assert (E : forall (p : Z -> bool) (l : list Z),
             existsb (fun d => negb (p d)) l = negb (forallb p l)).
  { intros p l. induction l as [|x l IHl]; [reflexivity|].
    cbn [existsb forallb]. rewrite IHl. now destruct (p x). }
  rewrite (E (fun d => Z.rem (Z.of_nat (length (flattenForest f))) d =? 0)).
  cbn [bind]. now destruct (forallb _ _).
Qed.

End RaggedLiterals.

(** X14. The literal of an array whose values are rectangular, each with
    dimensions of its own but all with as many of them, parses to the
    elements of the values in row-major order; the dimensions returned are
    the number of the values followed by the dimensions of the last value,
    and the error is nil when each of these divides the number of
    elements, the dimension error otherwise. So a row of three elements
    followed by a row of one is accepted, with the dimensions 2 and 1. *)
Theorem parseArray_last_value_dimensions (dl : byte) (f : forest)
  (dss : list (list Z)) (m : nat) :
  dl <> rbrace ->
  shapesOf dl dss f = true ->
  Forall (fun ds => length ds = m) dss ->
  parseArray (render dl (Node f)) [dl] =
  Returns
    (forestLength f :: last dss [], flattenForest f,
     if forallb
          (fun d => Z.rem (Z.of_nat (length (flattenForest f))) d =? 0)
          (forestLength f :: last dss [])
     then None else Some DimensionMismatch).
Proof. intros H. now apply parseArray_shapesOf. Qed.

Lemma parseArray_last_value_dimensions_witness :
  parseArray (bs "{{1,2,3},{4}}") [comma] =
  Returns ([2; 1],
           [Some (bs "1"); Some (bs "2"); Some (bs "3"); Some (bs "4")],
           None).
Proof.
  apply (parseArray_last_value_dimensions comma
           (More (Node (More (Leaf (Unquoted (bs "1")))
                          (More (Leaf (Unquoted (bs "2")))
                             (One (Leaf (Unquoted (bs "3")))))))
              (One (Node (One (Leaf (Unquoted (bs "4")))))))
           [[3]; [1]] 1%nat).
  - discriminate.
  - reflexivity.
  - repeat constructor.
Defined.
